(** * The video summary of [web/app.js]: collecting and filtering occurrences

    A shallow embedding of the handler of [GET /api/videos/:id/summary]
    (web/app.js, lines 215-373): the loop over the images of a video that
    groups face and keyword detections by name, and [filterOccurrences],
    which decides what groups are kept, keeps the best occurrence of each
    and ranks the result.

    JavaScript values are modelled as follows.
    - A number is a rational ([Q]); the code only compares scores and takes
      the sign of a difference, which is exact on finite doubles.  The
      occurrence thresholds are integers ([Z]), the lengths they are compared
      with are naturals.
    - A plain object used as a dictionary is the list of its own properties
      in insertion order ([JS.obj]); a lookup [o[k]] that misses the own
      properties falls back on [Object.prototype].
    - A detection is a mutable object shared between the image it belongs to
      and the group it is pushed to: detections live in a store and both
      sides hold references.
    - [Array.prototype.sort] is stable, as ECMAScript 2019 requires of it.
    - A call either returns or throws ([JS.completion]). *)

From Stdlib Require Import QArith Ascii String.
From stdpp Require Import base list gmap strings sorting.

Open Scope Z_scope.

(** ** The fragment of JavaScript the handler uses *)

Module JS.

(** The only exception the modelled code can raise. *)
Inductive exn : Type := TypeError.

Inductive completion (T : Type) : Type :=
| Normal (v : T)
| Throw (e : exn).
Arguments Normal {T} v.
Arguments Throw {T} e.

#[export] Instance completion_ret : MRet completion := fun _ v => Normal v.
#[export] Instance completion_bind : MBind completion := fun _ _ f c =>
  match c with
  | Normal v => f v
  | Throw e => Throw e
  end.

(** [l.forEach(x => ...)] where the body updates the variables [s] it
    closes over. *)
Fixpoint forEach {S X : Type} (body : S -> X -> completion S)
    (l : list X) (s : S) : completion S :=
  match l with
  | [] => Normal s
  | x :: l' => s' ← body s x; forEach body l' s'
  end.

(** *** Objects used as dictionaries *)

(** The own properties of an object, oldest first. *)
Definition obj (V : Type) : Type := list (string * V).

Definition own_keys {V} (o : obj V) : list string := o.*1.

Fixpoint obj_get {V} (o : obj V) (k : string) : option V :=
  match o with
  | [] => None
  | (k', v) :: o' => if decide (k' = k) then Some v else obj_get o' k
  end.

(** [o[k] = v]: an existing property keeps its place. *)
Fixpoint obj_set {V} (o : obj V) (k : string) (v : V) : obj V :=
  match o with
  | [] => [(k, v)]
  | (k', v') :: o' =>
      if decide (k' = k) then (k', v) :: o' else (k', v') :: obj_set o' k v
  end.

(** [delete o[k]] *)
Fixpoint obj_delete {V} (o : obj V) (k : string) : obj V :=
  match o with
  | [] => []
  | (k', v') :: o' =>
      if decide (k' = k) then obj_delete o' k else (k', v') :: obj_delete o' k
  end.

(** The properties every object literal inherits from [Object.prototype].
    All of them hold a function or an object, hence are truthy, and none
    has a [push] method. *)
Definition Object_prototype : list string :=
  [ "constructor"; "hasOwnProperty"; "isPrototypeOf"; "propertyIsEnumerable";
    "toLocaleString"; "toString"; "valueOf"; "__proto__";
    "__defineGetter__"; "__defineSetter__"; "__lookupGetter__";
    "__lookupSetter__" ]%string.

(** What [o[k]] evaluates to on an object built from the literal [{}]. *)
Inductive property (V : Type) : Type :=
| Own (v : V)
| Inherited
| Undefined.
Arguments Own {V} v.
Arguments Inherited {V}.
Arguments Undefined {V}.

Definition get {V} (o : obj V) (k : string) : property V :=
  match obj_get o k with
  | Some v => Own v
  | None => if decide (k ∈ Object_prototype) then Inherited else Undefined
  end.

(** *** [Object.keys]

    Own keys that are array indices (canonical decimal numerals up to
    [2^32 - 2]) come first, in ascending numeric order; the other keys
    follow in insertion order. *)

Definition digit (a : ascii) : option N :=
  let n := N_of_ascii a in
  if ((48 <=? n) && (n <=? 57))%N then Some (n - 48)%N else None.

Fixpoint digits (s : string) (acc : N) : option N :=
  match s with
  | EmptyString => Some acc
  | String a s' =>
      match digit a with
      | Some d => digits s' (10 * acc + d)%N
      | None => None
      end
  end.

Definition array_index (s : string) : option N :=
  match s with
  | EmptyString => None
  | String "0"%char EmptyString => Some 0%N
  | String "0"%char _ => None
  | _ =>
      match digits s 0 with
      | Some n => if (n <=? 4294967294)%N then Some n else None
      | None => None
      end
  end.

Fixpoint insert_index (i : N) (k : string) (l : list (N * string))
    : list (N * string) :=
  match l with
  | [] => [(i, k)]
  | (j, k') :: l' =>
      if (i <=? j)%N then (i, k) :: l else (j, k') :: insert_index i k l'
  end.

Fixpoint index_keys (ks : list string) : list (N * string) :=
  match ks with
  | [] => []
  | k :: ks' =>
      match array_index k with
      | Some i => insert_index i k (index_keys ks')
      | None => index_keys ks'
      end
  end.

Fixpoint string_keys (ks : list string) : list string :=
  match ks with
  | [] => []
  | k :: ks' =>
      match array_index k with
      | Some _ => string_keys ks'
      | None => k :: string_keys ks'
      end
  end.

Definition Object_keys {V} (o : obj V) : list string :=
  (index_keys (own_keys o)).*2 ++ string_keys (own_keys o).

(** *** Arrays *)

(** [l[0]] *)
Definition element_0 {T} (l : list T) : option T := head l.

(** [l.slice(start, end)]: a negative bound counts from the end. *)
Definition relative_index (len i : Z) : Z :=
  if i <? 0 then Z.max (len + i) 0 else Z.min i len.

Definition Array_slice {T} (l : list T) (start end_ : Z) : list T :=
  let len := Z.of_nat (length l) in
  let k := relative_index len start in
  let final := relative_index len end_ in
  take (Z.to_nat (final - k)) (drop (Z.to_nat k) l).

(** [l.sort(compare)], a stable sort (ECMAScript 2019, Array.prototype.sort;
    older engines did not promise it on long arrays): [one] stays before a
    later [another] unless [compare(one, another) > 0].  An exception of the
    comparison function is propagated. *)
Section Sort.
Context {T : Type} (compare : T -> T -> completion Q).

Fixpoint sort_insert (one : T) (l : list T) : completion (list T) :=
  match l with
  | [] => Normal [one]
  | another :: l' =>
      c ← compare one another;
      if Qlt_le_dec 0 c
      then l'' ← sort_insert one l'; Normal (another :: l'')
      else Normal (one :: l)
  end.

Fixpoint Array_sort (l : list T) : completion (list T) :=
  match l with
  | [] => Normal []
  | one :: l' => sorted ← Array_sort l'; sort_insert one sorted
  end.
End Sort.

(** A number used as a condition: [0] is falsy. *)
Definition truthy (n : Z) : bool := negb (n =? 0).

End JS.

Import JS.

(** ** [filterOccurrences] (web/app.js, lines 287-340) *)

(** The second argument of [filterOccurrences]: the score of an occurrence
    and the thresholds.  [maximumOccurrenceCount] is absent from the object
    the faces are filtered with. *)
Record accessor (A : Type) : Type := {
  score : A -> Q;
  minimumOccurrence : Z;
  minimumScore : Q;
  minimumScoreOccurrence : Z;
  maximumOccurrenceCount : option Z
}.
Arguments score {A} _ _.
Arguments minimumOccurrence {A} _.
Arguments minimumScore {A} _.
Arguments minimumScoreOccurrence {A} _.
Arguments maximumOccurrenceCount {A} _.

(** An element of the array [filterOccurrences] returns:
    [{ occurrences: [...] }]. *)
Record entry (A : Type) : Type := { occurrences : list A }.
Arguments occurrences {A} _.
Arguments Build_entry {A} _.

Section FilterOccurrences.
Context {A : Type} (acc : accessor A).

(** [accessor.score(x)] where [x] may be [undefined]: both score functions
    of the handler, [face => face.identity.score] and
    [label => label.score], read a property of their argument and throw
    a TypeError when there is none. *)
Definition call_score (x : option A) : completion Q :=
  match x with
  | Some occur => Normal (score acc occur)
  | None => Throw TypeError
  end.

(** Lines 295-300: the occurrences that reach the minimum score. *)
Definition numberOfOccurrencesAboveThreshold (arr : list A) : Z :=
  fold_left
    (fun n occur =>
       if Qle_bool (minimumScore acc) (score acc occur) then n + 1 else n)
    arr 0.

(** Lines 290-308. *)
Definition keepIt (arr : list A) : bool :=
  if Z.of_nat (length arr) >=? minimumOccurrence acc
  then numberOfOccurrencesAboveThreshold arr >=? minimumScoreOccurrence acc
  else false.

(** Lines 314-316: higher score first. *)
Definition compareOccurrences (oneOccurrence anotherOccurrence : A)
    : completion Q :=
  a ← call_score (Some anotherOccurrence);
  b ← call_score (Some oneOccurrence);
  Normal (a - b)%Q.

(** Lines 288-321, the body of the first loop for one [property]. *)
Definition filterProperty (occurrences : obj (list A)) (property : string)
    : completion (obj (list A)) :=
  match obj_get occurrences property with
  | None => Throw TypeError (* the [length] of [undefined] *)
  | Some arr =>
      if negb (keepIt arr)
      then Normal (obj_delete occurrences property)
      else
        sorted ← Array_sort compareOccurrences arr;
        Normal (obj_set occurrences property (Array_slice sorted 0 1))
  end.

(** Lines 330-333. *)
Definition compareEntries (oneOccurrence anotherOccurrence : entry A)
    : completion Q :=
  a ← call_score (element_0 (occurrences anotherOccurrence));
  b ← call_score (element_0 (occurrences oneOccurrence));
  Normal (a - b)%Q.

(** Lines 335-337. *)
Definition truncate (result : list (entry A)) : list (entry A) :=
  match maximumOccurrenceCount acc with
  | Some n =>
      if truthy n && (Z.of_nat (length result) >? n)
      then Array_slice result 0 n
      else result
  | None => result
  end.

(** The first loop: [occurrences] as the function leaves it. *)
Definition filterGroups (occurrences : obj (list A))
    : completion (obj (list A)) :=
  forEach filterProperty (Object_keys occurrences) occurrences.

(** Lines 323-328.  A key [Object.keys] lists is an own property, so the
    lookup never misses (lemma [obj_get_Object_keys]). *)
Definition entries (occurrences : obj (list A)) : list (entry A) :=
  (fun property =>
     {| occurrences := default [] (obj_get occurrences property) |})
  <$> Object_keys occurrences.

(** The function returns [result]; its argument [occurrences] is updated in
    place, and is returned with it here. *)
Definition filterOccurrences (occurrences : obj (list A))
    : completion (obj (list A) * list (entry A)) :=
  occurrences ← filterGroups occurrences;
  result ← Array_sort compareEntries (entries occurrences);
  Normal (occurrences, truncate result).

End FilterOccurrences.

(** ** The documents of the handler *)

(** A reference to a detection object of the store. *)
Definition ref : Type := nat.

(** [face.identity]: [{ name, score }]; the name may be missing. *)
Module Identity.
Record t : Type := { name : option string; score : Q }.
End Identity.

(** An element of [image.analysis.face_detection].  The last three fields
    are not part of the stored analysis: the handler writes them. *)
Module Face.
Record t : Type := {
  identity : option Identity.t;
  image_id : option string;
  image_url : option string;
  timecode : option Q
}.
End Face.

(** An element of [image.analysis.image_keywords]. *)
Module Keyword.
Record t : Type := {
  class : string;
  score : Q;
  image_id : option string;
  image_url : option string;
  timecode : option Q
}.
End Keyword.

Module Analysis.
Record t : Type := {
  face_detection : option (list ref);
  image_keywords : option (list ref)
}.
End Analysis.

Module Image.
Record t : Type := {
  _id : string;
  frame_timecode : option Q;
  analysis : option Analysis.t
}.
End Image.

(** What the handler reads of the HTTP request. *)
Module Request.
Record t : Type := { protocol : string; hostname : string }.
End Request.

(** The variables of the callback "summarize tags, faces" (lines 251-364):
    the detection objects reachable from [images], and the two maps. *)
Record state : Type := {
  faces : gmap ref Face.t;
  keywords : gmap ref Keyword.t;
  peopleNameToOccurrences : obj (list ref);
  keywordToOccurrences : obj (list ref)
}.

(** ** Collecting the occurrences (web/app.js, lines 254-284) *)

(** [if (!map[key]) { map[key] = []; } map[key].push(occurrence);]
    An inherited property is truthy, so no array is created for it, and it
    has no [push]: the call throws. *)
Definition pushOccurrence (map : obj (list ref)) (key : string)
    (occurrence : ref) : completion (obj (list ref)) :=
  let map :=
    match get map key with
    | Undefined => obj_set map key []
    | _ => map
    end in
  match get map key with
  | Own arr => Normal (obj_set map key (arr ++ [occurrence]))
  | _ => Throw TypeError
  end.

Definition image_url (req : Request.t) (image : Image.t) : string :=
  (Request.protocol req ++ "://" ++ Request.hostname req
     ++ "/images/image/" ++ Image._id image ++ ".jpg")%string.

(** Lines 266-268. *)
Definition tagFace (req : Request.t) (image : Image.t) (face : Face.t)
    : Face.t :=
  {| Face.identity := Face.identity face;
     Face.image_id := Some (Image._id image);
     Face.image_url := Some (image_url req image);
     Face.timecode := Image.frame_timecode image |}.

(** Lines 279-281. *)
Definition tagKeyword (req : Request.t) (image : Image.t)
    (keyword : Keyword.t) : Keyword.t :=
  {| Keyword.class := Keyword.class keyword;
     Keyword.score := Keyword.score keyword;
     Keyword.image_id := Some (Image._id image);
     Keyword.image_url := Some (image_url req image);
     Keyword.timecode := Image.frame_timecode image |}.

(** [face.identity && face.identity.name]: the name when it is there and
    not the empty string. *)
Definition identity_name (face : Face.t) : option string :=
  match Face.identity face with
  | Some identity =>
      match Identity.name identity with
      | Some name => if decide (name = EmptyString) then None else Some name
      | None => None
      end
  | None => None
  end.

(** Lines 260-270, for one element of [face_detection]; a reference to
    nothing stands for an [undefined] element, whose [identity] cannot be
    read. *)
Definition collectFace (req : Request.t) (image : Image.t) (s : state)
    (r : ref) : completion state :=
  match faces s !! r with
  | None => Throw TypeError
  | Some face =>
      match identity_name face with
      | Some name =>
          people ← pushOccurrence (peopleNameToOccurrences s) name r;
          Normal {| faces := <[r := tagFace req image face]> (faces s);
                    keywords := keywords s;
                    peopleNameToOccurrences := people;
                    keywordToOccurrences := keywordToOccurrences s |}
      | None => Normal s
      end
  end.

(** Lines 274-282, for one element of [image_keywords]. *)
Definition collectKeyword (req : Request.t) (image : Image.t) (s : state)
    (r : ref) : completion state :=
  match keywords s !! r with
  | None => Throw TypeError
  | Some keyword =>
      labels ← pushOccurrence (keywordToOccurrences s)
                 (Keyword.class keyword) r;
      Normal {| faces := faces s;
                keywords := <[r := tagKeyword req image keyword]> (keywords s);
                peopleNameToOccurrences := peopleNameToOccurrences s;
                keywordToOccurrences := labels |}
  end.

(** Lines 258-284, for one image. *)
Definition collectImage (req : Request.t) (s : state) (image : Image.t)
    : completion state :=
  s ← match Image.analysis image ≫= Analysis.face_detection with
      | Some face_detection => forEach (collectFace req image) face_detection s
      | None => Normal s
      end;
  match Image.analysis image ≫= Analysis.image_keywords with
  | Some image_keywords => forEach (collectKeyword req image) image_keywords s
  | None => Normal s
  end.

(** Lines 254-284: both maps start empty. *)
Definition collect (req : Request.t) (images : list Image.t)
    (faces : gmap ref Face.t) (keywords : gmap ref Keyword.t)
    : completion state :=
  forEach (collectImage req) images
    {| faces := faces; keywords := keywords;
       peopleNameToOccurrences := []; keywordToOccurrences := [] |}.

(** ** The thresholds and the two calls (lines 217-229 and 342-358) *)

Record options_t : Type := {
  minimumFaceOccurrence : Z;
  minimumFaceScore : Q;
  minimumFaceScoreOccurrence : Z;
  minimumLabelOccurrence : Z;
  minimumLabelScore : Q;
  minimumLabelScoreOccurrence : Z;
  maximumLabelCount : Z;
  minimumKeywordOccurrence : Z;
  minimumKeywordScore : Q;
  minimumKeywordScoreOccurrence : Z;
  maximumKeywordCount : Z
}.

Definition options : options_t := {|
  minimumFaceOccurrence := 3;
  minimumFaceScore := 0.85;
  minimumFaceScoreOccurrence := 2;
  minimumLabelOccurrence := 5;
  minimumLabelScore := 0.70;
  minimumLabelScoreOccurrence := 1;
  maximumLabelCount := 5;
  minimumKeywordOccurrence := 1;
  minimumKeywordScore := 0.60;
  minimumKeywordScoreOccurrence := 1;
  maximumKeywordCount := 5
|}.

(** [face => face.identity.score].  Every occurrence of a face group has an
    identity ([people_named], lemma [collect_collected]); the [0] is never
    read. *)
Definition faceScore (faces : gmap ref Face.t) (face : ref) : Q :=
  match faces !! face ≫= Face.identity with
  | Some identity => Identity.score identity
  | None => 0
  end.

(** [label => label.score] *)
Definition labelScore (keywords : gmap ref Keyword.t) (label : ref) : Q :=
  match keywords !! label with
  | Some keyword => Keyword.score keyword
  | None => 0
  end.

(** Lines 343-348. *)
Definition faceAccessor (faces : gmap ref Face.t) : accessor ref := {|
  score := faceScore faces;
  minimumOccurrence := minimumFaceOccurrence options;
  minimumScore := minimumFaceScore options;
  minimumScoreOccurrence := minimumFaceScoreOccurrence options;
  maximumOccurrenceCount := None
|}.

(** Lines 352-358. *)
Definition keywordAccessor (keywords : gmap ref Keyword.t) : accessor ref := {|
  score := labelScore keywords;
  minimumOccurrence := minimumKeywordOccurrence options;
  minimumScore := minimumKeywordScore options;
  minimumScoreOccurrence := minimumKeywordScoreOccurrence options;
  maximumOccurrenceCount := Some (maximumKeywordCount options)
|}.

(** The object passed to the last callback (lines 360-364), and the store as
    the handler leaves it. *)
Record summary (Video : Type) : Type := {
  video : Video;
  face_detection : list (entry ref);
  image_keywords : list (entry ref);
  detections : gmap ref Face.t * gmap ref Keyword.t
}.
Arguments video {Video} _.
Arguments face_detection {Video} _.
Arguments image_keywords {Video} _.
Arguments detections {Video} _.

(** Lines 251-364. *)
Definition summarize {Video : Type} (req : Request.t) (video : Video)
    (images : list Image.t) (faces0 : gmap ref Face.t)
    (keywords0 : gmap ref Keyword.t) : completion (summary Video) :=
  s ← collect req images faces0 keywords0;
  people ← filterOccurrences (faceAccessor (faces s))
             (peopleNameToOccurrences s);
  labels ← filterOccurrences (keywordAccessor (keywords s))
             (keywordToOccurrences s);
  Normal {| video := video;
            face_detection := people.2;
            image_keywords := labels.2;
            detections := (faces s, keywords s) |}.

(** ** The images of a video (web/app.js, lines 394-407) *)

(** What a handler answers: [res.send(body)], or
    [res.status(500).send({ error: err })]. *)
Inductive response (B E : Type) : Type :=
| Send (body : B)
| Status500 (error : E).
Arguments Send {B E} body.
Arguments Status500 {B E} error.

Section VideoImages.
Context {I E : Type} (frame_number : I -> option Q).

(** Lines 402-403:
    [image1.frame_number ? image1.frame_number - image2.frame_number : 0].
    A frame number that is missing or [0] is falsy; a difference with a
    missing frame number is [NaN], which [sort] reads as [+0]. *)
Definition compareFrames (image1 image2 : I) : completion Q :=
  Normal
    match frame_number image1 with
    | Some n1 =>
        if Qeq_dec n1 0 then 0%Q
        else match frame_number image2 with
             | Some n2 => (n1 - n2)%Q
             | None => 0%Q
             end
    | None => 0%Q
    end.

(** Lines 394-407, [GET /api/videos/:id/images]: the callback given to
    [mediaStorage.videoImages]. *)
Definition videoImages (err : option E) (images : list I)
    : completion (response (list I) E) :=
  match err with
  | Some e => Normal (Status500 e)
  | None => sorted ← Array_sort compareFrames images; Normal (Send sorted)
  end.

End VideoImages.

(** ** Definitions for the statements *)

(** Comparisons of numbers are decidable. *)
#[global] Instance Qle_decision (x y : Q) : Decision (x <= y)%Q.
Proof.
  destruct (Qlt_le_dec y x) as [H | H].
  - right. by apply Qlt_not_le.
  - by left.
Defined.

#[global] Instance Qlt_decision (x y : Q) : Decision (x < y)%Q.
Proof.
  destruct (Qlt_le_dec x y) as [H | H].
  - by left.
  - right. by apply Qle_not_lt.
Defined.

#[global] Instance Qeq_decision (x y : Q) : Decision (x == y)%Q :=
  Qeq_dec x y.

(** The own keys of an object are pairwise distinct. *)
Definition well_formed {V} (o : obj V) : Prop := NoDup (own_keys o).

(** What [Array.prototype.sort] computes when the comparison function returns
    [key another - key one]: a stable insertion by descending key. *)
Section SortDescending.
Context {T : Type} (key : T -> Q).

Fixpoint insert_desc (x : T) (l : list T) : list T :=
  match l with
  | [] => [x]
  | y :: l' =>
      if decide (key x < key y)%Q then y :: insert_desc x l' else x :: l
  end.

Fixpoint sort_desc (l : list T) : list T :=
  match l with
  | [] => []
  | x :: l' => insert_desc x (sort_desc l')
  end.

(** [descending x y]: [x] may stand before [y]. *)
Definition descending (x y : T) : Prop := (key y <= key x)%Q.

(** [x] is the first element of [l] with the greatest key. *)
Definition first_max (x : T) (l : list T) : Prop :=
  exists pre post,
    l = pre ++ x :: post /\
    Forall (fun y => key y < key x)%Q pre /\
    Forall (fun y => key y <= key x)%Q post.

End SortDescending.

Section FilterDefinitions.
Context {A : Type} (acc : accessor A).

(** The two bars of the filter, as the specification words them: enough
    occurrences, and enough of them with the minimum score. *)
Definition passes (arr : list A) : Prop :=
  minimumOccurrence acc <= Z.of_nat (length arr) /\
  minimumScoreOccurrence acc <=
    Z.of_nat (length (filter (fun occur =>
                                (minimumScore acc <= score acc occur)%Q) arr)).

(** What is kept of a group: the head of the sorted array. *)
Definition best (arr : list A) : list A := take 1 (sort_desc (score acc) arr).

(** The object once the loop has visited the keys [visited]. *)
Fixpoint filtered (visited : list string) (o : obj (list A)) : obj (list A) :=
  match o with
  | [] => []
  | (k, arr) :: o' =>
      if decide (k ∈ visited)
      then if keepIt acc arr
           then (k, best arr) :: filtered visited o'
           else filtered visited o'
      else (k, arr) :: filtered visited o'
  end.

(** The object at the end of the loop. *)
Definition kept (o : obj (list A)) : obj (list A) :=
  filtered (own_keys o) o.

(** The score the result is ranked by: that of [e.occurrences[0]]. *)
Definition entry_score (e : entry A) : Q :=
  match element_0 (occurrences e) with
  | Some occur => score acc occur
  | None => 0
  end.

(** No group is an empty array: what the collecting loop builds. *)
Definition no_empty_group (o : obj (list A)) : Prop :=
  forall k, obj_get o k <> Some [].

(** No group that passes is an empty array. *)
Definition kept_nonempty (o : obj (list A)) : Prop :=
  forall k arr, obj_get o k = Some arr -> passes arr -> arr <> [].

(** The ranking before truncation. *)
Definition ranked (o : obj (list A)) : list (entry A) :=
  sort_desc entry_score (entries (kept o)).

(** The group of the key [k] of [o] passes both bars. *)
Definition group_passes (o : obj (list A)) (k : string) : Prop :=
  match obj_get o k with
  | Some arr => passes arr
  | None => False
  end.

#[global] Instance group_passes_dec (o : obj (list A)) (k : string)
  : Decision (group_passes o k).
Proof. unfold group_passes, passes. destruct (obj_get o k); apply _. Defined.

(** The keys that pass both bars, read off the argument of the function:
    one entry for each key whose group passes, holding what is kept of the
    group, in the order [Object.keys] lists the keys. *)
Definition passing (o : obj (list A)) : list (entry A) :=
  (fun k => {| occurrences := best (default [] (obj_get o k)) |})
  <$> filter (group_passes o) (Object_keys o).

End FilterDefinitions.

(** The order in which [Object.keys] lists the keys [inserted], given in
    insertion order: the array indices first, by ascending value, then the
    other keys as they were inserted. *)
Definition keys_in_order (listed inserted : list string) : Prop :=
  exists indices,
    listed
    = (indices ++ filter (fun k => array_index k = None) inserted)%list /\
    indices ≡ₚ filter (fun k => is_Some (array_index k)) inserted /\
    StronglySorted
      (fun k k' => (default 0 (array_index k) <= default 0 (array_index k'))%N)
      indices.

(** Two outcomes of a comparison function that the sort cannot tell apart. *)
Definition same_sign (c c' : completion Q) : Prop :=
  match c, c' with
  | Normal q, Normal q' => (q == q')%Q
  | Throw e, Throw e' => e = e'
  | _, _ => False
  end.

(** *** The collecting loop *)

(** A face of the store that the loop has pushed to the group [name]: it
    has that name, and has been tagged with one of the images that hold
    it. *)
Definition face_pushed (req : Request.t) (images : list Image.t)
    (faces : gmap ref Face.t) (name : string) (r : ref) : Prop :=
  exists face image,
    image ∈ images /\
    r ∈ default [] (Image.analysis image ≫= Analysis.face_detection) /\
    identity_name face = Some name /\
    faces !! r = Some (tagFace req image face).

Definition keyword_pushed (req : Request.t) (images : list Image.t)
    (keywords : gmap ref Keyword.t) (class : string) (r : ref) : Prop :=
  exists keyword image,
    image ∈ images /\
    r ∈ default [] (Image.analysis image ≫= Analysis.image_keywords) /\
    Keyword.class keyword = class /\
    keywords !! r = Some (tagKeyword req image keyword).

(** The face map of a state: every group is under the name of the faces it
    holds, and holds at least one. *)
Definition people_named (req : Request.t) (images : list Image.t) (s : state)
    : Prop :=
  forall name arr, obj_get (peopleNameToOccurrences s) name = Some arr ->
    arr <> [] /\ forall r, r ∈ arr -> face_pushed req images (faces s) name r.

(** The keyword map of a state, likewise. *)
Definition keywords_classed (req : Request.t) (images : list Image.t)
    (s : state) : Prop :=
  forall class arr, obj_get (keywordToOccurrences s) class = Some arr ->
    arr <> [] /\
    forall r, r ∈ arr -> keyword_pushed req images (keywords s) class r.

(** What the loop may have done to a face of the store: nothing, or tagged
    it with one of the images; a face without a name is left alone. *)
Definition face_kept (req : Request.t) (images : list Image.t)
    (before after : option Face.t) : Prop :=
  match before with
  | None => after = None
  | Some face =>
      after = Some face \/
      (identity_name face <> None /\
       exists image, image ∈ images /\ after = Some (tagFace req image face))
  end.

Definition keyword_kept (req : Request.t) (images : list Image.t)
    (before after : option Keyword.t) : Prop :=
  match before with
  | None => after = None
  | Some keyword =>
      after = Some keyword \/
      exists image, image ∈ images /\ after = Some (tagKeyword req image keyword)
  end.

(** The invariant of the loop. *)
Definition collected (req : Request.t) (images : list Image.t)
    (faces0 : gmap ref Face.t) (keywords0 : gmap ref Keyword.t) (s : state)
    : Prop :=
  well_formed (peopleNameToOccurrences s) /\
  well_formed (keywordToOccurrences s) /\
  people_named req images s /\
  keywords_classed req images s /\
  (forall r, face_kept req images (faces0 !! r) (faces s !! r)) /\
  (forall r, keyword_kept req images (keywords0 !! r) (keywords s !! r)).

(** No detection of the images is [undefined], and no name or class is a
    property of [Object.prototype]. *)
Definition collectable (images : list Image.t) (faces0 : gmap ref Face.t)
    (keywords0 : gmap ref Keyword.t) : Prop :=
  forall image, image ∈ images ->
    (forall face_detection r,
       Image.analysis image ≫= Analysis.face_detection = Some face_detection ->
       r ∈ face_detection ->
       exists face, faces0 !! r = Some face /\
         forall name, identity_name face = Some name ->
                      name ∉ Object_prototype) /\
    (forall image_keywords r,
       Image.analysis image ≫= Analysis.image_keywords = Some image_keywords ->
       r ∈ image_keywords ->
       exists keyword, keywords0 !! r = Some keyword /\
                       Keyword.class keyword ∉ Object_prototype).

(** The names and classes of the store are those it started with. *)
Definition same_names (faces0 : gmap ref Face.t)
    (keywords0 : gmap ref Keyword.t) (s : state) : Prop :=
  (forall r, identity_name <$> faces s !! r = identity_name <$> faces0 !! r) /\
  (forall r, Keyword.class <$> keywords s !! r
             = Keyword.class <$> keywords0 !! r).

(** The four thresholds of an accessor. *)
Definition thresholds {A : Type} (acc : accessor A) : Z * Q * Z * option Z :=
  (minimumOccurrence acc, minimumScore acc, minimumScoreOccurrence acc,
   maximumOccurrenceCount acc).

(** *** Examples *)

(** Groups of bare scores, for the examples: an occurrence is its score. *)
Definition scores (minimumOccurrence : Z) (minimumScore : Q)
    (minimumScoreOccurrence : Z) (maximumOccurrenceCount : option Z)
    : accessor Q :=
  {| score := fun occur => occur;
     minimumOccurrence := minimumOccurrence;
     minimumScore := minimumScore;
     minimumScoreOccurrence := minimumScoreOccurrence;
     maximumOccurrenceCount := maximumOccurrenceCount |}.

(** The thresholds of the scenarios of the specification. *)
Definition two_above : accessor Q := scores 2 0.85 2 None.
Definition three_above : accessor Q := scores 2 0.85 3 None.
Definition top_1 : accessor Q := scores 2 0.5 1 (Some 1).
Definition cap_0 : accessor Q := scores 2 0.5 1 (Some 0).
Definition stricter : accessor Q := scores 3 0.9 2 None.

Definition alice : obj (list Q) := [("alice"%string, [0.9; 0.6; 0.95]%Q)].

Definition a_and_b : obj (list Q) :=
  [("a"%string, [0.9; 0.9; 0.9]%Q); ("b"%string, [0.99; 0.99]%Q)].

(** One occurrence of "a" and two of "b", and the first of the ranking
    with a minimum of one occurrence, then of two. *)
Definition a_then_b : obj (list Q) :=
  [("a"%string, [0.9%Q]); ("b"%string, [0.8; 0.8]%Q)].
Definition first_of_1 : accessor Q := scores 1 0.5 1 (Some 1).
Definition first_of_2 : accessor Q := scores 2 0.5 1 (Some 1).

(** Thresholds with no minimum of occurrences. *)
Definition unchecked : accessor Q := scores 0 0.85 1 None.

(** The thresholds of [top_1] written with other fractions, and a score
    function that adds nothing. *)
Definition top_1' : accessor Q :=
  {| score := fun occur => (occur + 0)%Q;
     minimumOccurrence := 2;
     minimumScore := (1 # 2)%Q;
     minimumScoreOccurrence := 1;
     maximumOccurrenceCount := Some 1 |}.

(** The examples: one frame of a video, with one detection. *)
Definition request : Request.t :=
  {| Request.protocol := "https"; Request.hostname := "example.org" |}.

Definition frame (face_detection image_keywords : option (list ref))
    : Image.t :=
  {| Image._id := "frame-1";
     Image.frame_timecode := Some 12%Q;
     Image.analysis :=
       Some {| Analysis.face_detection := face_detection;
               Analysis.image_keywords := image_keywords |} |}.

Definition keyword_of (class : string) : Keyword.t :=
  {| Keyword.class := class;
     Keyword.score := 0.9;
     Keyword.image_id := None;
     Keyword.image_url := None;
     Keyword.timecode := None |}.

Definition face_of (name : option string) : Face.t :=
  {| Face.identity := Some {| Identity.name := name; Identity.score := 0.9 |};
     Face.image_id := None;
     Face.image_url := None;
     Face.timecode := None |}.

Definition face_frame : Image.t := frame (Some [0%nat]) None.
Definition keyword_frame : Image.t := frame None (Some [0%nat]).

Definition alice_faces : gmap ref Face.t :=
  {[ 0%nat := face_of (Some "alice"%string) ]}.
Definition unnamed_faces : gmap ref Face.t := {[ 0%nat := face_of None ]}.
Definition sky_keywords : gmap ref Keyword.t := {[ 0%nat := keyword_of "sky" ]}.
Definition constructor_keywords : gmap ref Keyword.t :=
  {[ 0%nat := keyword_of "constructor" ]}.

(** The summary of the frame with the face of "alice": no group has the
    three occurrences the faces need. *)
Definition alice_summary : summary unit :=
  {| video := tt;
     face_detection := [];
     image_keywords := [];
     detections :=
       ({[ 0%nat := tagFace request face_frame
                      (face_of (Some "alice"%string)) ]}, ∅) |}.

(** *** The groups the loop builds, read off the images *)

(** The detections of the images, in the order the loop visits them. *)
Definition face_refs (images : list Image.t) : list ref :=
  images ≫= fun image =>
    default [] (Image.analysis image ≫= Analysis.face_detection).

Definition keyword_refs (images : list Image.t) : list ref :=
  images ≫= fun image =>
    default [] (Image.analysis image ≫= Analysis.image_keywords).

(** The key a detection of the store is grouped under, if any. *)
Definition name_of (faces : gmap ref Face.t) (r : ref) : option string :=
  faces !! r ≫= identity_name.

Definition class_of (keywords : gmap ref Keyword.t) (r : ref)
    : option string :=
  Keyword.class <$> keywords !! r.

(** The detections with one key, in the order of the images. *)
Definition with_key (key_of : ref -> option string) (refs : list ref)
    (key : string) : list ref :=
  filter (fun r => key_of r = Some key) refs.

(** [map[key].push(r)], on a map that has an array for [key] or no property
    of that name. *)
Definition push_key (key_of : ref -> option string) (map : obj (list ref))
    (r : ref) : obj (list ref) :=
  match key_of r with
  | Some key => obj_set map key (default [] (obj_get map key) ++ [r])
  | None => map
  end.

(** The keys in the order they were first seen. *)
Definition add_key (seen : list string) (key : string) : list string :=
  if decide (key ∈ seen) then seen else seen ++ [key].

Definition first_seen (keys : list string) : list string :=
  foldl add_key [] keys.

(** The key of the occurrence an entry holds. *)
Definition entry_key (key_of : ref -> option string) (e : entry ref)
    : option string :=
  element_0 (occurrences e) ≫= key_of.

(** The loop, as pushes on the two maps. *)
Definition pushed (faces0 : gmap ref Face.t) (keywords0 : gmap ref Keyword.t)
    (face_detection image_keywords : list ref) (s s' : state) : Prop :=
  same_names faces0 keywords0 s' /\
  peopleNameToOccurrences s'
  = foldl (push_key (name_of faces0)) (peopleNameToOccurrences s)
      face_detection /\
  keywordToOccurrences s'
  = foldl (push_key (class_of keywords0)) (keywordToOccurrences s)
      image_keywords.

(** *** The frames of a video *)

(** The frame number the images are sorted by. *)
Definition number_of {I : Type} (frame_number : I -> option Q) (image : I)
    : Q :=
  default 0%Q (frame_number image).

(** A frame number that is there and is not [0]. *)
Definition numbered {I : Type} (frame_number : I -> option Q) (image : I)
    : Prop :=
  exists n, frame_number image = Some n /\ ~ (n == 0)%Q.

(** *** More examples *)

(** Images that are their frame number. *)
Definition frames_312 : list Q := [3%Q; 1%Q; 2%Q].

(** Three frames of a video: a face of "alice" in each, and a keyword in
    the first. *)
Definition frame_1 : Image.t :=
  {| Image._id := "frame-1"; Image.frame_timecode := Some 1%Q;
     Image.analysis :=
       Some {| Analysis.face_detection := Some [0%nat];
               Analysis.image_keywords := Some [0%nat] |} |}.

Definition frame_2 : Image.t :=
  {| Image._id := "frame-2"; Image.frame_timecode := Some 2%Q;
     Image.analysis :=
       Some {| Analysis.face_detection := Some [1%nat];
               Analysis.image_keywords := None |} |}.

Definition frame_3 : Image.t :=
  {| Image._id := "frame-3"; Image.frame_timecode := None;
     Image.analysis :=
       Some {| Analysis.face_detection := Some [2%nat];
               Analysis.image_keywords := Some [] |} |}.

Definition three_frames : list Image.t := [frame_1; frame_2; frame_3].

Definition three_faces : gmap ref Face.t :=
  {[ 0%nat := face_of (Some "alice"%string);
     1%nat := face_of (Some "alice"%string);
     2%nat := face_of (Some "alice"%string) ]}.

(** The state the loop ends in on these. *)
Definition three_frames_state : state :=
  {| faces :=
       {[ 0%nat := tagFace request frame_1 (face_of (Some "alice"%string));
          1%nat := tagFace request frame_2 (face_of (Some "alice"%string));
          2%nat := tagFace request frame_3 (face_of (Some "alice"%string)) ]};
     keywords := {[ 0%nat := tagKeyword request frame_1 (keyword_of "sky") ]};
     peopleNameToOccurrences := [("alice"%string, [0%nat; 1%nat; 2%nat])];
     keywordToOccurrences := [("sky"%string, [0%nat])] |}.

(** Their summary. *)
Definition three_frames_summary : summary unit :=
  {| video := tt;
     face_detection := [{| occurrences := [0%nat] |}];
     image_keywords := [{| occurrences := [0%nat] |}];
     detections := (faces three_frames_state, keywords three_frames_state) |}.

(** Thresholds with a negative cap. *)
Definition all_but_1 : accessor Q := scores 2 0.5 1 (Some (-1)).

(** ** Facts about objects *)

Section ObjectFacts.
Context {V : Type}.
Implicit Types (o : obj V) (k : string) (v : V).

Lemma obj_get_Some o k v : obj_get o k = Some v -> (k, v) ∈ o.
Proof.
  induction o as [|[k' v'] o IH]; simpl; [done|].
  case_decide; intros ?; simplify_eq; [left | right; auto].
Qed.

Lemma obj_get_None o k : obj_get o k = None <-> k ∉ own_keys o.
Proof.
  unfold own_keys. induction o as [|[k' v'] o IH]; simpl.
  - split; [intros _; apply not_elem_of_nil | done].
  - rewrite not_elem_of_cons. case_decide as Hk.
    + split; [done | intros []; congruence].
    + rewrite IH. split; [by split; [congruence|] | by intros []].
Qed.

Lemma obj_get_is_Some o k : is_Some (obj_get o k) <-> k ∈ own_keys o.
Proof.
  rewrite <- not_eq_None_Some, obj_get_None.
  destruct (decide (k ∈ own_keys o)); naive_solver.
Qed.

Lemma obj_get_elem_of o k v :
  well_formed o -> (k, v) ∈ o -> obj_get o k = Some v.
Proof.
  unfold well_formed, own_keys.
  induction o as [|[k' v'] o IH]; simpl; intros Hnd Hin.
  - by apply elem_of_nil in Hin.
  - apply NoDup_cons in Hnd as [Hk' Hnd].
    apply elem_of_cons in Hin as [Heq | Hin]; simplify_eq.
    + by rewrite decide_True.
    + rewrite decide_False; [auto|].
      intros ->. apply Hk'. apply list_elem_of_fmap. by exists (k, v).
Qed.

Lemma own_keys_set o k v :
  k ∈ own_keys o -> own_keys (obj_set o k v) = own_keys o.
Proof.
  unfold own_keys. induction o as [|[k' v'] o IH]; simpl; intros Hin.
  - by apply elem_of_nil in Hin.
  - case_decide; simplify_eq; [done|]. simpl. f_equal.
    apply IH. apply elem_of_cons in Hin as [?|?]; [congruence | done].
Qed.

Lemma own_keys_set_new o k v :
  k ∉ own_keys o -> own_keys (obj_set o k v) = own_keys o ++ [k].
Proof.
  unfold own_keys. induction o as [|[k' v'] o IH]; simpl; intros Hin; [done|].
  apply not_elem_of_cons in Hin as [Hne Hin].
  rewrite decide_False by done. simpl. f_equal. auto.
Qed.

Lemma obj_get_set o k k' v :
  obj_get (obj_set o k v) k' = if decide (k = k') then Some v else obj_get o k'.
Proof.
  induction o as [|[k0 v0] o IH]; simpl.
  - by repeat case_decide.
  - destruct (decide (k0 = k)) as [-> | Hne]; simpl.
    + by destruct (decide (k = k')).
    + rewrite IH. destruct (decide (k0 = k')) as [-> | Hne']; [|done].
      by rewrite decide_False by congruence.
Qed.

Lemma obj_get_delete o k k' :
  obj_get (obj_delete o k) k' = if decide (k = k') then None else obj_get o k'.
Proof.
  induction o as [|[k0 v0] o IH]; simpl.
  - by case_decide.
  - destruct (decide (k0 = k)) as [-> | Hne]; simpl.
    + rewrite IH. by destruct (decide (k = k')).
    + rewrite IH. destruct (decide (k0 = k')) as [-> | Hne']; [|done].
      by rewrite decide_False by congruence.
Qed.

Lemma own_keys_delete o k :
  own_keys (obj_delete o k) = filter (fun k' => k' <> k) (own_keys o).
Proof.
  unfold own_keys. induction o as [|[k0 v0] o IH]; simpl; [done|].
  rewrite filter_cons. simpl.
  destruct (decide (k0 = k)) as [-> | Hne].
  - by rewrite decide_False by (intros H; by apply H).
  - rewrite decide_True by done. simpl. by f_equal.
Qed.

Lemma obj_set_set o k v v' : obj_set (obj_set o k v) k v' = obj_set o k v'.
Proof.
  induction o as [|[k0 v0] o IH]; simpl; [by rewrite decide_True|].
  case_decide; simpl; [by rewrite decide_True|].
  rewrite decide_False by done. by rewrite IH.
Qed.

Lemma well_formed_set o k v : well_formed o -> well_formed (obj_set o k v).
Proof.
  unfold well_formed. intros Hnd.
  destruct (decide (k ∈ own_keys o)) as [Hin | Hin].
  - by rewrite own_keys_set.
  - rewrite own_keys_set_new by done.
    apply NoDup_app. split_and!; [done | | apply NoDup_singleton].
    intros k' Hk' ->%list_elem_of_singleton. done.
Qed.

End ObjectFacts.

(** ** Facts about [Object.keys] *)

Section ObjectKeys.

Lemma insert_index_perm i k l : insert_index i k l ≡ₚ (i, k) :: l.
Proof.
  induction l as [|[j k'] l IH]; simpl; [done|].
  destruct (i <=? j)%N; [done|].
  rewrite IH. apply Permutation_swap.
Qed.

Lemma keys_perm (ks : list string) :
  (index_keys ks).*2 ++ string_keys ks ≡ₚ ks.
Proof.
  induction ks as [|k ks IH]; simpl; [done|].
  destruct (array_index k) as [i|].
  - rewrite insert_index_perm. simpl. by rewrite IH.
  - rewrite <- Permutation_middle. by rewrite IH.
Qed.

Context {V : Type}.
Implicit Types (o : obj V) (k : string).

Lemma Object_keys_perm o : Object_keys o ≡ₚ own_keys o.
Proof. apply keys_perm. Qed.

Lemma elem_of_Object_keys o k : k ∈ Object_keys o <-> k ∈ own_keys o.
Proof. by rewrite Object_keys_perm. Qed.

Lemma NoDup_Object_keys o : well_formed o -> NoDup (Object_keys o).
Proof. unfold well_formed. by rewrite Object_keys_perm. Qed.

Lemma obj_get_Object_keys o k : k ∈ Object_keys o -> is_Some (obj_get o k).
Proof. rewrite elem_of_Object_keys. apply obj_get_is_Some. Qed.

(** Without a key that is an array index, [Object.keys] is the insertion
    order. *)
Lemma Object_keys_insertion_order o :
  Forall (fun k => array_index k = None) (own_keys o) ->
  Object_keys o = own_keys o.
Proof.
  unfold Object_keys. intros Hks.
  assert (index_keys (own_keys o) = [] /\
          string_keys (own_keys o) = own_keys o) as [-> ->]; [|done].
  induction Hks as [|k ks Hk _ [IHi IHs]]; simpl; [done|].
  rewrite Hk. by rewrite IHi, IHs.
Qed.

End ObjectKeys.

(** *** The order of [Object.keys] *)

Lemma insert_index_least i k l :
  Forall (fun b => (i <= b.1)%N) l -> insert_index i k l = (i, k) :: l.
Proof.
  destruct l as [|[j k'] l]; simpl; [done|].
  intros [Hj _]%Forall_cons. simpl in Hj.
  by apply N.leb_le in Hj as ->.
Qed.

Lemma insert_index_sorted i k l :
  StronglySorted (fun a b => (a.1 <= b.1)%N) l ->
  StronglySorted (fun a b : N * string => (a.1 <= b.1)%N) (insert_index i k l).
Proof.
  induction l as [|[j k'] l IH]; simpl; intros Hl.
  - repeat constructor.
  - apply StronglySorted_inv in Hl as [Hl Hj].
    destruct (N.leb_spec i j) as [Hij | Hij].
    + constructor; [by constructor|].
      constructor; [done|].
      eapply Forall_impl; [exact Hj|]. simpl. intros b Hb. lia.
    + constructor; [by apply IH|].
      rewrite insert_index_perm. constructor; [simpl; lia | done].
Qed.

Lemma index_keys_sorted ks :
  StronglySorted (fun a b : N * string => (a.1 <= b.1)%N) (index_keys ks).
Proof.
  induction ks as [|k ks IH]; simpl; [constructor|].
  destruct (array_index k); [by apply insert_index_sorted | done].
Qed.

Lemma index_keys_perm ks :
  (index_keys ks).*2 ≡ₚ filter (fun k => is_Some (array_index k)) ks.
Proof.
  induction ks as [|k ks IH]; simpl; [done|].
  rewrite filter_cons. destruct (array_index k) as [i|] eqn:Hk.
  - rewrite decide_True by by eexists.
    rewrite insert_index_perm. simpl. by rewrite IH.
  - by rewrite decide_False by by intros [? ?].
Qed.

Lemma elem_of_index_keys ks i k :
  (i, k) ∈ index_keys ks -> array_index k = Some i.
Proof.
  induction ks as [|k0 ks IH]; simpl; [by intros ?%elem_of_nil|].
  destruct (array_index k0) as [i0|] eqn:Hk0; [|done].
  rewrite insert_index_perm. intros [[= -> ->] | Hin]%elem_of_cons; auto.
Qed.

Lemma string_keys_filter ks :
  string_keys ks = filter (fun k => array_index k = None) ks.
Proof.
  induction ks as [|k ks IH]; simpl; [done|].
  rewrite filter_cons. destruct (array_index k) as [i|] eqn:Hk.
  - by rewrite decide_False by done.
  - rewrite decide_True by done. by rewrite IH.
Qed.

(** [Object.keys] lists the array indices by ascending value, then the
    other keys in insertion order. *)
Lemma Object_keys_in_order {V} (o : obj V) :
  keys_in_order (Object_keys o) (own_keys o).
Proof.
  exists (index_keys (own_keys o)).*2. split_and!.
  - unfold Object_keys. by rewrite string_keys_filter.
  - apply index_keys_perm.
  - pose proof (index_keys_sorted (own_keys o)) as Hsorted.
    assert (Forall (fun b => array_index b.2 = Some b.1)
              (index_keys (own_keys o))) as Hidx.
    { apply Forall_forall. intros [i k]. apply elem_of_index_keys. }
    induction Hsorted as [|b l Hl IH Hb]; simpl; [constructor|].
    apply Forall_cons in Hidx as [Hb1 Hidx].
    constructor; [by apply IH|].
    rewrite Forall_fmap. rewrite Forall_forall in Hb, Hidx.
    apply Forall_forall. intros c Hc. simpl.
    rewrite Hb1, (Hidx c Hc). simpl. by apply Hb.
Qed.

(** Keys taken away leave the others in the order they had. *)
Section KeysFilter.
Context (P : string -> Prop) `{!forall k, Decision (P k)}.

Lemma insert_index_filter i k l :
  StronglySorted (fun a b => (a.1 <= b.1)%N) l ->
  filter (fun b : N * string => P b.2) (insert_index i k l)
  = if decide (P k)
    then insert_index i k (filter (fun b : N * string => P b.2) l)
    else filter (fun b : N * string => P b.2) l.
Proof.
  induction l as [|[j k'] l IH]; simpl; intros Hl.
  - rewrite filter_cons. simpl. by destruct (decide (P k)).
  - apply StronglySorted_inv in Hl as [Hl Hj].
    destruct (N.leb_spec i j) as [Hij | Hij].
    + rewrite filter_cons. simpl. destruct (decide (P k)); [|done].
      rewrite insert_index_least; [done|].
      apply Forall_forall. intros b [_ Hb]%list_elem_of_filter.
      apply elem_of_cons in Hb as [-> | Hb]; simpl; [done|].
      rewrite Forall_forall in Hj. specialize (Hj b Hb). simpl in Hj. lia.
    + rewrite !filter_cons. simpl. rewrite IH by done.
      destruct (decide (P k')), (decide (P k)); simpl; try done.
      by apply N.leb_gt in Hij as ->.
Qed.

Lemma index_keys_filter ks :
  index_keys (filter P ks)
  = filter (fun b : N * string => P b.2) (index_keys ks).
Proof.
  induction ks as [|k ks IH]; simpl; [done|].
  rewrite filter_cons.
  destruct (array_index k) as [i|] eqn:Hk.
  - rewrite insert_index_filter by apply index_keys_sorted.
    destruct (decide (P k)); simpl; [|done]. by rewrite Hk, IH.
  - destruct (decide (P k)); simpl; [|done]. by rewrite Hk.
Qed.

Lemma string_keys_filter_comm ks :
  string_keys (filter P ks) = filter P (string_keys ks).
Proof.
  rewrite !string_keys_filter, !list_filter_filter.
  apply list_filter_iff. tauto.
Qed.

Lemma Object_keys_filter {V} (o o' : obj V) :
  own_keys o' = filter P (own_keys o) ->
  Object_keys o' = filter P (Object_keys o).
Proof.
  intros Hkeys. unfold Object_keys.
  rewrite Hkeys, index_keys_filter, string_keys_filter_comm, filter_app.
  f_equal. induction (index_keys (own_keys o)) as [|[i k] l IH]; [done|].
  rewrite fmap_cons, !filter_cons. simpl.
  destruct (decide (P k)); [rewrite fmap_cons; simpl; f_equal|]; exact IH.
Qed.

(** A sublist without duplicates is the filter of its elements. *)
Lemma sublist_filter_eq (l' l : list string) :
  l' `sublist_of` l -> NoDup l ->
  (forall k, k ∈ l -> k ∈ l' <-> P k) ->
  l' = filter P l.
Proof.
  intros Hsub. induction Hsub as [|k l1 l2 Hsub IH|k l1 l2 Hsub IH];
    intros Hnd HP; [done|..].
  - apply NoDup_cons in Hnd as [Hk Hnd]. rewrite filter_cons.
    rewrite decide_True by (apply HP; left).
    f_equal. apply IH; [done|]. intros k' Hk'.
    rewrite <- HP by by right. rewrite elem_of_cons.
    split; [by right | intros [-> | ?]; done].
  - apply NoDup_cons in Hnd as [Hk Hnd]. rewrite filter_cons.
    rewrite decide_False.
    + apply IH; [done|]. intros k' Hk'. apply HP. by right.
    + intros HPk. apply HP in HPk; [|left].
      apply Hk. by eapply sublist_subseteq.
Qed.

End KeysFilter.

(** ** Facts about [Array.prototype.sort] and [slice] *)

(** [sort_desc] permutes, sorts and is stable. *)
Section SortDescendingFacts.
Context {T : Type} (key : T -> Q).

Lemma insert_desc_perm x l : insert_desc key x l ≡ₚ x :: l.
Proof.
  induction l as [|y l IH]; simpl; [done|].
  case_decide; [|done]. rewrite IH. apply Permutation_swap.
Qed.

Lemma sort_desc_perm l : sort_desc key l ≡ₚ l.
Proof.
  induction l as [|x l IH]; simpl; [done|].
  by rewrite insert_desc_perm, IH.
Qed.

Lemma sort_desc_length l : length (sort_desc key l) = length l.
Proof. by rewrite sort_desc_perm. Qed.

Lemma insert_desc_sorted x l :
  StronglySorted (descending key) l -> StronglySorted (descending key) (insert_desc key x l).
Proof.
  induction 1 as [|y l Hl IH Hy]; simpl.
  - repeat constructor.
  - case_decide as Hxy.
    + constructor; [done|]. rewrite insert_desc_perm.
      constructor; [by apply Qlt_le_weak | done].
    + apply Qnot_lt_le in Hxy.
      constructor; [by constructor|]. constructor; [done|].
      eapply Forall_impl; [exact Hy|]. unfold descending. simpl.
      intros z Hz. eapply Qle_trans; [exact Hz | exact Hxy].
Qed.

Lemma sort_desc_sorted l : StronglySorted (descending key) (sort_desc key l).
Proof.
  induction l as [|x l IH]; simpl; [constructor | by apply insert_desc_sorted].
Qed.

(** Stability: elements with equal keys keep their relative order. *)
Lemma insert_desc_stable q x l :
  filter (fun y => key y == q)%Q (insert_desc key x l)
  = filter (fun y => key y == q)%Q (x :: l).
Proof.
  induction l as [|y l IH]; simpl; [done|].
  case_decide as Hxy; [|done].
  rewrite (filter_cons _ y), IH, !filter_cons.
  destruct (decide (key y == q)%Q) as [Hy|Hy],
           (decide (key x == q)%Q) as [Hx|Hx]; try done.
  rewrite Hx, Hy in Hxy. by apply Qlt_irrefl in Hxy.
Qed.

Lemma sort_desc_stable q l :
  filter (fun y => key y == q)%Q (sort_desc key l)
  = filter (fun y => key y == q)%Q l.
Proof.
  induction l as [|x l IH]; simpl; [done|].
  by rewrite insert_desc_stable, !filter_cons, IH.
Qed.

(** The sorted array starts with the first greatest element. *)
Lemma sort_desc_first_max l :
  l <> [] -> exists x rest, sort_desc key l = x :: rest /\ first_max key x l.
Proof.
  induction l as [|a l IH]; [done|]. intros _. simpl.
  destruct l as [|b l].
  { exists a, []. split; [done|]. by exists [], []. }
  destruct IH as (x & rest & -> & pre & post & Hl & Hpre & Hpost); [done|].
  simpl. case_decide as Hax.
  - exists x, (insert_desc key a rest). split; [done|].
    exists (a :: pre), post. rewrite Hl. split_and!; [done| |done].
    by constructor.
  - apply Qnot_lt_le in Hax.
    exists a, (x :: rest). split; [done|].
    exists [], (b :: l). split_and!; [done|constructor|].
    rewrite Hl. apply Forall_app. split.
    + eapply Forall_impl; [exact Hpre|]. simpl. intros y Hy.
      apply Qlt_le_weak. by eapply Qlt_le_trans.
    + constructor; [done|].
      eapply Forall_impl; [exact Hpost|]. simpl. intros y Hy.
      eapply Qle_trans; [exact Hy | exact Hax].
Qed.

(** No element has a greater key than the first greatest one, which is an
    element of the array. *)
Lemma first_max_greatest x l y : first_max key x l -> y ∈ l -> (key y <= key x)%Q.
Proof.
  intros (pre & post & -> & Hpre & Hpost) Hy.
  rewrite Forall_forall in Hpre, Hpost.
  apply elem_of_app in Hy as [Hy | Hy].
  - by apply Qlt_le_weak, Hpre.
  - apply elem_of_cons in Hy as [-> | Hy]; [apply Qle_refl | by apply Hpost].
Qed.

Lemma first_max_elem_of x l : first_max key x l -> x ∈ l.
Proof. intros (pre & post & -> & _). set_solver. Qed.

End SortDescendingFacts.

Section SortFacts.
Context {T : Type}.
Implicit Types (compare : T -> T -> completion Q) (l : list T).

Lemma sort_insert_perm compare x l l' :
  sort_insert compare x l = Normal l' -> l' ≡ₚ x :: l.
Proof.
  revert l'. induction l as [|y l IH]; simpl; intros l' H.
  - by simplify_eq.
  - destruct (compare x y) as [c|]; simpl in H; [|done].
    destruct (Qlt_le_dec 0 c); [|by simplify_eq].
    destruct (sort_insert compare x l) as [l''|]; simpl in H; [|done].
    simplify_eq. rewrite (IH l'') by done. apply Permutation_swap.
Qed.

(** A sort that returns has permuted its argument. *)
Lemma Array_sort_perm compare l l' :
  Array_sort compare l = Normal l' -> l' ≡ₚ l.
Proof.
  revert l'. induction l as [|x l IH]; simpl; intros l' H.
  - by simplify_eq.
  - destruct (Array_sort compare l) as [s|]; simpl in H; [|done].
    apply sort_insert_perm in H. by rewrite H, (IH s).
Qed.

Lemma sort_insert_desc compare (key : T -> Q) x l :
  (forall y, y ∈ l -> compare x y = Normal (key y - key x)%Q) ->
  sort_insert compare x l = Normal (insert_desc key x l).
Proof.
  induction l as [|y l IH]; simpl; intros Hc; [done|].
  rewrite Hc by left. simpl.
  destruct (Qlt_le_dec 0 (key y - key x)) as [Hlt | Hle].
  - rewrite IH by (intros; apply Hc; by right). simpl.
    rewrite decide_True; [done|].
    by rewrite Qlt_minus_iff.
  - rewrite decide_False; [done|].
    rewrite Qlt_minus_iff. by apply Qle_not_lt.
Qed.

(** When the comparison function is [key another - key one] on the
    elements of the array, the sort returns, and returns [sort_desc]. *)
Lemma Array_sort_desc compare (key : T -> Q) l :
  (forall x y, x ∈ l -> y ∈ l -> compare x y = Normal (key y - key x)%Q) ->
  Array_sort compare l = Normal (sort_desc key l).
Proof.
  induction l as [|x l IH]; simpl; intros Hc; [done|].
  rewrite IH by (intros; apply Hc; by right). simpl.
  apply sort_insert_desc. intros y Hy. apply Hc; [left|right].
  by rewrite <- (sort_desc_perm key l).
Qed.

Lemma relative_index_0 len : 0 <= len -> relative_index len 0 = 0.
Proof. unfold relative_index. simpl. lia. Qed.

(** [l.slice(0, n)] with [n >= 0] keeps the first [n] elements. *)
Lemma Array_slice_take l n : 0 <= n -> Array_slice l 0 n = take (Z.to_nat n) l.
Proof.
  intros Hn. unfold Array_slice.
  rewrite relative_index_0 by lia. simpl. rewrite Z.sub_0_r.
  unfold relative_index. destruct (Z.ltb_spec n 0); [lia|].
  destruct (Z.min_spec n (Z.of_nat (length l))) as [[? ->] | [? ->]]; [done|].
  change (Z.to_nat 0) with 0%nat. rewrite drop_0, Nat2Z.id.
  rewrite !take_ge; [done | lia | lia].
Qed.

Lemma Array_slice_prefix l n : Array_slice l 0 n `prefix_of` l.
Proof.
  unfold Array_slice. rewrite relative_index_0 by lia.
  change (Z.to_nat 0) with 0%nat. rewrite drop_0. apply prefix_take.
Qed.

End SortFacts.

(** ** The first loop of [filterOccurrences] *)

Section FilterGroups.
Context {A : Type} (acc : accessor A).
Implicit Types (o : obj (list A)) (arr : list A) (k : string).

Lemma count_above arr n :
  fold_left
    (fun n occur =>
       if Qle_bool (minimumScore acc) (score acc occur) then n + 1 else n)
    arr n
  = n + Z.of_nat (length (filter (fun occur =>
                                (minimumScore acc <= score acc occur)%Q) arr)).
Proof.
  revert n. induction arr as [|x arr IH]; intros n; simpl; [lia|].
  rewrite IH, filter_cons.
  destruct (Qle_bool _ _) eqn:Hb.
  - apply Qle_bool_iff in Hb. rewrite decide_True by done. simpl. lia.
  - rewrite decide_False; [done|]. rewrite <- Qle_bool_iff. congruence.
Qed.

Lemma keepIt_passes arr : keepIt acc arr = true <-> passes acc arr.
Proof.
  unfold keepIt, passes, numberOfOccurrencesAboveThreshold.
  rewrite count_above, Z.add_0_l.
  destruct (Z.geb_spec (Z.of_nat (length arr)) (minimumOccurrence acc)).
  - rewrite Z.geb_le. intuition lia.
  - split; [done | lia].
Qed.

Lemma compareOccurrences_score (x y : A) :
  compareOccurrences acc x y = Normal (score acc y - score acc x)%Q.
Proof. done. Qed.

Lemma filterProperty_found o k arr :
  obj_get o k = Some arr ->
  filterProperty acc o k
  = Normal (if keepIt acc arr then obj_set o k (best acc arr) else obj_delete o k).
Proof.
  intros Hk. unfold filterProperty. rewrite Hk.
  destruct (keepIt acc arr); simpl; [|done].
  rewrite (Array_sort_desc _ (score acc)) by done. simpl.
  by rewrite Array_slice_take.
Qed.

Lemma own_keys_filtered visited o k :
  k ∈ own_keys (filtered acc visited o) -> k ∈ own_keys o.
Proof.
  unfold own_keys. induction o as [|[k0 a0] o IH]; simpl; [done|].
  repeat case_match; simpl; rewrite ?elem_of_cons; tauto.
Qed.

Lemma well_formed_filtered visited o :
  well_formed o -> well_formed (filtered acc visited o).
Proof.
  unfold well_formed. induction o as [|[k0 a0] o IH]; simpl; [done|].
  unfold own_keys in *. simpl. rewrite NoDup_cons. intros [Hk0 Hnd].
  repeat case_match; simpl; rewrite ?NoDup_cons; try split; auto;
    intros Hin; by apply own_keys_filtered in Hin.
Qed.

Lemma filtered_ext visited visited' o :
  (forall k, k ∈ own_keys o -> k ∈ visited <-> k ∈ visited') ->
  filtered acc visited o = filtered acc visited' o.
Proof.
  unfold own_keys. induction o as [|[k0 a0] o IH]; simpl; intros H; [done|].
  rewrite IH by (intros; apply H; by right).
  destruct (decide (k0 ∈ visited)) as [Hin | Hin].
  - rewrite decide_True; [done|]. apply H; [left | done].
  - rewrite decide_False; [done|]. rewrite <- H; [done | left].
Qed.

Lemma obj_delete_absent {V} (o : obj V) k :
  k ∉ own_keys o -> obj_delete o k = o.
Proof.
  unfold own_keys. induction o as [|[k0 v0] o IH]; simpl; [done|].
  rewrite not_elem_of_cons. intros [Hne Hin].
  rewrite decide_False by done. f_equal. auto.
Qed.

(** One round of the loop. *)
Lemma filtered_step visited o k arr :
  well_formed o -> obj_get o k = Some arr -> k ∉ visited ->
  (if keepIt acc arr
   then obj_set (filtered acc visited o) k (best acc arr)
   else obj_delete (filtered acc visited o) k)
  = filtered acc (k :: visited) o.
Proof.
  unfold well_formed, own_keys.
  induction o as [|[k0 a0] o IH]; simpl; [done|].
  rewrite NoDup_cons. intros [Hk0 Hnd] Hk Hv.
  destruct (decide (k0 = k)) as [-> | Hne].
  - simplify_eq. rewrite decide_False by done.
    rewrite decide_True by left.
    assert (filtered acc (k :: visited) o = filtered acc visited o) as ->.
    { apply filtered_ext. intros k' Hk'. rewrite elem_of_cons.
      split; [intros [-> | ?]; done | by right]. }
    destruct (keepIt acc arr); simpl.
    + by rewrite decide_True.
    + rewrite decide_True by done. apply obj_delete_absent.
      intros Hin. by apply own_keys_filtered in Hin.
  - specialize (IH Hnd Hk Hv).
    destruct (decide (k0 ∈ visited)) as [Hin | Hin].
    + rewrite decide_True by by right.
      destruct (keepIt acc a0); [|done].
      destruct (keepIt acc arr); simpl; rewrite decide_False by done;
        by rewrite IH.
    + rewrite (decide_False (P := k0 ∈ k :: visited))
        by (rewrite elem_of_cons; intros [? | ?]; congruence).
      destruct (keepIt acc arr); simpl; rewrite decide_False by done;
        by rewrite IH.
Qed.

Lemma obj_get_filtered_unvisited visited o k :
  k ∉ visited -> obj_get (filtered acc visited o) k = obj_get o k.
Proof.
  intros Hv. induction o as [|[k0 a0] o IH]; simpl; [done|].
  destruct (decide (k0 = k)) as [-> | Hne].
  - rewrite decide_False by done. simpl. by rewrite decide_True.
  - repeat case_match; simpl; rewrite ?decide_False by done; done.
Qed.

Lemma forEach_filterProperty ks visited o :
  well_formed o -> NoDup ks ->
  (forall k, k ∈ ks -> k ∈ own_keys o /\ k ∉ visited) ->
  forEach (filterProperty acc) ks (filtered acc visited o)
  = Normal (filtered acc (ks ++ visited) o).
Proof.
  intros Hwf. revert visited.
  induction ks as [|k ks IH]; intros visited Hnd Hks; simpl; [done|].
  apply NoDup_cons in Hnd as [Hk Hnd].
  destruct (Hks k) as [Hin Hv]; [left|].
  apply obj_get_is_Some in Hin as [arr Harr].
  rewrite (filterProperty_found _ _ arr)
    by by rewrite obj_get_filtered_unvisited.
  simpl. rewrite (filtered_step _ _ _ arr) by done.
  rewrite IH; [f_equal; apply filtered_ext | done |].
  { intros k' _. rewrite !elem_of_app, !elem_of_cons, elem_of_app. tauto. }
  intros k' Hk'. destruct (Hks k') as [? ?]; [by right|].
  split; [done|]. rewrite not_elem_of_cons. split; [|done]. by intros ->.
Qed.

Lemma filtered_nil o : filtered acc [] o = o.
Proof.
  induction o as [|[k0 a0] o IH]; simpl; [done|]. by rewrite IH.
Qed.

(** The first loop returns, and leaves [kept]. *)
Lemma filterGroups_kept o :
  well_formed o -> filterGroups acc o = Normal (kept acc o).
Proof.
  intros Hwf. unfold filterGroups, kept.
  rewrite <- (filtered_nil o) at 2.
  rewrite forEach_filterProperty.
  - f_equal. apply filtered_ext. intros k Hk.
    rewrite app_nil_r, elem_of_Object_keys. done.
  - done.
  - by apply NoDup_Object_keys.
  - intros k Hk. split; [by apply elem_of_Object_keys | apply not_elem_of_nil].
Qed.

Lemma obj_get_filtered visited o k :
  well_formed o -> k ∈ visited ->
  obj_get (filtered acc visited o) k
  = arr ← obj_get o k; if keepIt acc arr then Some (best acc arr) else None.
Proof.
  unfold well_formed, own_keys. intros Hnd Hv.
  induction o as [|[k0 a0] o IH]; simpl; [done|].
  apply NoDup_cons in Hnd as [Hk0 Hnd]. specialize (IH Hnd).
  destruct (decide (k0 = k)) as [-> | Hne]; simpl.
  - rewrite decide_True by done.
    destruct (keepIt acc a0); simpl; [by rewrite decide_True|].
    apply obj_get_None. intros Hin. by apply own_keys_filtered in Hin.
  - repeat case_match; simpl; rewrite ?decide_False by done; done.
Qed.

Lemma obj_get_kept o k :
  well_formed o ->
  obj_get (kept acc o) k
  = arr ← obj_get o k; if keepIt acc arr then Some (best acc arr) else None.
Proof.
  intros Hwf. unfold kept.
  destruct (decide (k ∈ own_keys o)) as [Hin | Hin].
  - by apply obj_get_filtered.
  - assert (obj_get o k = None) as -> by by apply obj_get_None.
    simpl. apply obj_get_None. intros Hk. by apply own_keys_filtered in Hk.
Qed.

Lemma well_formed_kept o : well_formed o -> well_formed (kept acc o).
Proof. apply well_formed_filtered. Qed.

(** The keys the loop keeps are those of the groups that pass both bars. *)
Lemma elem_of_own_keys_kept o k :
  well_formed o ->
  k ∈ own_keys (kept acc o) <-> exists arr, obj_get o k = Some arr /\ passes acc arr.
Proof.
  intros Hwf. rewrite <- obj_get_is_Some, obj_get_kept by done.
  setoid_rewrite <- keepIt_passes.
  destruct (obj_get o k) as [arr|]; simpl.
  - destruct (keepIt acc arr) eqn:Hk.
    + split; [intros _; by exists arr | by eexists].
    + split; [by intros [? ?] | intros (? & ? & ?); congruence].
  - split; [by intros [? ?] | by intros (? & ? & ?)].
Qed.

Lemma passes_nonempty arr :
  1 <= minimumOccurrence acc -> passes acc arr -> arr <> [].
Proof. intros Hmin [Hlen _] ->. simpl in Hlen. lia. Qed.

Lemma best_first_max arr :
  arr <> [] -> exists x, best acc arr = [x] /\ first_max (score acc) x arr.
Proof.
  intros Harr.
  destruct (sort_desc_first_max (score acc) arr Harr) as (x & rest & Hs & Hx).
  exists x. unfold best. by rewrite Hs.
Qed.

End FilterGroups.

(** ** The result of [filterOccurrences] *)

Section FilterResult.
Context {A : Type} (acc : accessor A).
Implicit Types (o : obj (list A)) (arr : list A) (k : string) (e : entry A).

Lemma elem_of_entries o e :
  e ∈ entries o <-> exists k, k ∈ own_keys o /\ obj_get o k = Some (occurrences e).
Proof.
  unfold entries. rewrite list_elem_of_fmap. split.
  - intros (k & -> & Hk). exists k.
    split; [by apply elem_of_Object_keys|]. simpl.
    by destruct (obj_get_Object_keys o k Hk) as [arr ->].
  - intros (k & Hk & Hget). exists k.
    split; [|by apply elem_of_Object_keys].
    rewrite Hget. by destruct e.
Qed.

Lemma entries_length o : length (entries o) = length (own_keys o).
Proof. unfold entries. by rewrite length_fmap, Object_keys_perm. Qed.

Lemma compareEntries_score e1 e2 :
  occurrences e1 <> [] -> occurrences e2 <> [] ->
  compareEntries acc e1 e2 = Normal ((entry_score acc) e2 - (entry_score acc) e1)%Q.
Proof.
  unfold compareEntries, entry_score.
  destruct e1 as [[|x1 l1]], e2 as [[|x2 l2]]; done.
Qed.

(** An entry of the kept groups comes from a group that passes. *)
Lemma elem_of_entries_kept o e :
  well_formed o ->
  e ∈ entries (kept acc o) <->
  exists k arr, obj_get o k = Some arr /\ passes acc arr /\
                occurrences e = best acc arr.
Proof.
  intros Hwf. rewrite elem_of_entries. split.
  - intros (k & Hk & Hget). rewrite obj_get_kept in Hget by done.
    destruct (obj_get o k) as [arr|] eqn:Harr; simpl in Hget; [|done].
    destruct (keepIt acc arr) eqn:Hkeep; [|done].
    exists k, arr. split_and!; [done | by apply keepIt_passes | congruence].
  - intros (k & arr & Harr & Hpass & He). exists k.
    split; [apply elem_of_own_keys_kept; eauto|].
    rewrite obj_get_kept, Harr by done. simpl.
    apply keepIt_passes in Hpass. by rewrite Hpass, He.
Qed.

Lemma kept_nonempty_minimumOccurrence o :
  1 <= minimumOccurrence acc -> kept_nonempty acc o.
Proof. intros Hmin k arr _. by apply passes_nonempty. Qed.

Lemma kept_nonempty_no_empty_group o : no_empty_group o -> kept_nonempty acc o.
Proof. intros Hne k arr Hk _ ->. by apply (Hne k). Qed.

Lemma kept_nonempty_cases o :
  1 <= minimumOccurrence acc \/ no_empty_group o -> kept_nonempty acc o.
Proof.
  intros [Hmin | Hne];
    [by apply kept_nonempty_minimumOccurrence
    | by apply kept_nonempty_no_empty_group].
Qed.

Lemma entries_kept_nonempty o e :
  well_formed o -> kept_nonempty acc o ->
  e ∈ entries (kept acc o) -> occurrences e <> [].
Proof.
  intros Hwf Hne (k & arr & Hk & Hpass & ->)%elem_of_entries_kept; [|done].
  destruct (best_first_max acc arr) as (x & -> & _); [by eapply Hne | done].
Qed.

(** When no kept group is empty the function returns, and returns the
    ranking, truncated. *)
Lemma filterOccurrences_ranked o :
  well_formed o -> kept_nonempty acc o ->
  filterOccurrences acc o = Normal (kept acc o, truncate acc (ranked acc o)).
Proof.
  intros Hwf Hne. unfold filterOccurrences.
  rewrite filterGroups_kept by done. simpl.
  rewrite (Array_sort_desc _ (entry_score acc)); [done|].
  intros e1 e2 He1 He2.
  apply compareEntries_score; by eapply entries_kept_nonempty.
Qed.

Lemma truncate_subseteq (result : list (entry A)) :
  truncate acc result ⊆ result.
Proof.
  unfold truncate. destruct (maximumOccurrenceCount acc) as [n|]; [|done].
  destruct (_ && _); [|done].
  unfold Array_slice. etransitivity; [apply subseteq_take | apply subseteq_drop].
Qed.

Lemma truncate_length (result : list (entry A)) :
  length (truncate acc result)
  = match maximumOccurrenceCount acc with
    | Some n =>
        if truthy n && (Z.of_nat (length result) >? n)
        then Z.to_nat (relative_index (Z.of_nat (length result)) n)
        else length result
    | None => length result
    end.
Proof.
  unfold truncate. destruct (maximumOccurrenceCount acc) as [n|]; [|done].
  destruct (_ && _); [|done].
  unfold Array_slice. rewrite relative_index_0 by lia.
  change (Z.to_nat 0) with 0%nat. rewrite drop_0, length_take, Z.sub_0_r.
  unfold relative_index. destruct (Z.ltb_spec n 0); lia.
Qed.

(** Whatever the thresholds: a call that returns has left [kept] in its
    argument and returns some of its entries. *)
Lemma filterOccurrences_Normal_perm o r :
  well_formed o -> filterOccurrences acc o = Normal r ->
  exists result,
    result ≡ₚ entries (kept acc o) /\ r = (kept acc o, truncate acc result).
Proof.
  intros Hwf. unfold filterOccurrences.
  rewrite filterGroups_kept by done. simpl.
  destruct (Array_sort _ _) as [result|] eqn:Hsort; simpl; [|done].
  intros [= <-]. exists result. split; [|done].
  by apply Array_sort_perm in Hsort.
Qed.

Lemma filterOccurrences_Normal o r :
  well_formed o -> filterOccurrences acc o = Normal r ->
  r.1 = kept acc o /\ r.2 ⊆ entries (kept acc o).
Proof.
  intros Hwf (result & Hperm & ->)%filterOccurrences_Normal_perm; [|done].
  simpl. split; [done|]. rewrite <- Hperm. apply truncate_subseteq.
Qed.

End FilterResult.

(** ** The function reads scores as numbers

    Two accessors whose scores and thresholds are equal as numbers make the
    same decisions. *)

Lemma forEach_ext {S X : Type} (body body' : S -> X -> completion S) l s :
  (forall s x, body s x = body' s x) -> forEach body l s = forEach body' l s.
Proof.
  intros Hbody. revert s. induction l as [|x l IH]; intros s; simpl; [done|].
  rewrite Hbody. destruct (body' s x); simpl; [apply IH | done].
Qed.

Lemma sort_insert_ext {T : Type} (compare compare' : T -> T -> completion Q)
    x l :
  (forall x y, same_sign (compare x y) (compare' x y)) ->
  sort_insert compare x l = sort_insert compare' x l.
Proof.
  intros Hc. induction l as [|y l IH]; simpl; [done|].
  specialize (Hc x y).
  destruct (compare x y) as [c|e], (compare' x y) as [c'|e']; simpl in *;
    [|done..|by subst].
  rewrite IH.
  destruct (Qlt_le_dec 0 c) as [H|H], (Qlt_le_dec 0 c') as [H'|H']; try done.
  - rewrite Hc in H. by apply Qlt_not_le in H.
  - rewrite Hc in H. by apply Qlt_not_le in H'.
Qed.

Lemma Array_sort_ext {T : Type} (compare compare' : T -> T -> completion Q) l :
  (forall x y, same_sign (compare x y) (compare' x y)) ->
  Array_sort compare l = Array_sort compare' l.
Proof.
  intros Hc. induction l as [|x l IH]; simpl; [done|].
  rewrite IH. destruct (Array_sort compare' l); simpl; [|done].
  by apply sort_insert_ext.
Qed.

Lemma sort_desc_ext {T : Type} (key key' : T -> Q) l :
  (forall x, key x == key' x)%Q -> sort_desc key l = sort_desc key' l.
Proof.
  intros Hkey. induction l as [|x l IH]; simpl; [done|].
  rewrite IH. generalize (sort_desc key' l). clear IH.
  intros s. induction s as [|y s IH]; simpl; [done|].
  rewrite IH.
  destruct (decide (key x < key y)%Q) as [H|H],
           (decide (key' x < key' y)%Q) as [H'|H']; try done.
  - by rewrite !Hkey in H.
  - by rewrite <- !Hkey in H'.
Qed.

Section SameNumbers.
Context {A : Type} (acc acc' : accessor A).
Context (Hscore : forall occur, (score acc occur == score acc' occur)%Q).
Context (HminimumScore : (minimumScore acc == minimumScore acc')%Q).

Lemma numberOfOccurrencesAboveThreshold_ext arr :
  numberOfOccurrencesAboveThreshold acc arr
  = numberOfOccurrencesAboveThreshold acc' arr.
Proof.
  unfold numberOfOccurrencesAboveThreshold. generalize 0.
  induction arr as [|x arr IH]; intros n; simpl; [done|].
  by rewrite (Qleb_comp _ _ HminimumScore _ _ (Hscore x)), !IH.
Qed.

Lemma best_ext arr : best acc arr = best acc' arr.
Proof. unfold best. by rewrite (sort_desc_ext (score acc) (score acc')). Qed.

Lemma above_ext (arr : list A) :
  filter (fun occur => (minimumScore acc <= score acc occur)%Q) arr
  = filter (fun occur => (minimumScore acc' <= score acc' occur)%Q) arr.
Proof.
  apply list_filter_iff. intros x. by rewrite HminimumScore, Hscore.
Qed.

Context (HminimumOccurrence : minimumOccurrence acc = minimumOccurrence acc').
Context (HminimumScoreOccurrence :
           minimumScoreOccurrence acc = minimumScoreOccurrence acc').
Context (HmaximumOccurrenceCount :
           maximumOccurrenceCount acc = maximumOccurrenceCount acc').

Lemma keepIt_ext arr : keepIt acc arr = keepIt acc' arr.
Proof.
  unfold keepIt.
  by rewrite numberOfOccurrencesAboveThreshold_ext, HminimumOccurrence,
    HminimumScoreOccurrence.
Qed.

Lemma call_score_ext x : same_sign (call_score acc x) (call_score acc' x).
Proof. destruct x; simpl; [apply Hscore | done]. Qed.

Lemma compare_ext (x y x' y' : option A) :
  x = x' -> y = y' ->
  same_sign (a ← call_score acc x; b ← call_score acc y; Normal (a - b)%Q)
            (a ← call_score acc' x'; b ← call_score acc' y'; Normal (a - b)%Q).
Proof.
  intros <- <-. destruct x as [x|], y as [y|]; simpl; try done.
  by rewrite (Hscore x), (Hscore y).
Qed.

Lemma filterProperty_ext o k : filterProperty acc o k = filterProperty acc' o k.
Proof.
  unfold filterProperty. destruct (obj_get o k) as [arr|]; [|done].
  rewrite keepIt_ext. destruct (keepIt acc' arr); simpl; [|done].
  rewrite (Array_sort_ext _ (compareOccurrences acc')); [done|].
  intros x y. by apply compare_ext.
Qed.

Lemma truncate_ext (result : list (entry A)) :
  truncate acc result = truncate acc' result.
Proof. unfold truncate. by rewrite HmaximumOccurrenceCount. Qed.

Lemma filterOccurrences_ext o :
  filterOccurrences acc o = filterOccurrences acc' o.
Proof.
  unfold filterOccurrences, filterGroups.
  rewrite (forEach_ext _ (filterProperty acc')) by apply filterProperty_ext.
  destruct (forEach _ _ _) as [o'|]; simpl; [|done].
  rewrite (Array_sort_ext _ (compareEntries acc'))
    by (intros x y; by apply compare_ext).
  destruct (Array_sort _ _); simpl; [|done].
  by rewrite truncate_ext.
Qed.

End SameNumbers.

Lemma truncate_prefix {A : Type} (acc : accessor A) (result : list (entry A)) :
  truncate acc result `prefix_of` result.
Proof.
  unfold truncate. destruct (maximumOccurrenceCount acc) as [n|]; [|done].
  destruct (truthy n && _); [apply Array_slice_prefix | done].
Qed.

Lemma truncate_nil {A : Type} (acc : accessor A) : truncate acc [] = [].
Proof.
  apply prefix_nil_inv. apply truncate_prefix.
Qed.

(** *** The result, read off the argument *)

Section Passing.
Context {A : Type} (acc : accessor A).
Implicit Types (o : obj (list A)) (arr : list A) (k : string).

Lemma group_passes_iff o k :
  group_passes acc o k <-> exists arr, obj_get o k = Some arr /\ passes acc arr.
Proof.
  unfold group_passes. destruct (obj_get o k) as [arr|].
  - split; [by exists arr | by intros (? & [= <-] & ?)].
  - split; [done | by intros (? & ? & ?)].
Qed.

Lemma own_keys_filtered_sublist visited o :
  own_keys (filtered acc visited o) `sublist_of` own_keys o.
Proof.
  unfold own_keys. induction o as [|[k0 a0] o IH]; simpl; [done|].
  repeat case_match; simpl; by constructor.
Qed.

(** The filtering pass leaves the keys that pass, in the order they had. *)
Lemma own_keys_kept o :
  well_formed o ->
  own_keys (kept acc o) = filter (group_passes acc o) (own_keys o).
Proof.
  intros Hwf. apply sublist_filter_eq.
  - apply own_keys_filtered_sublist.
  - exact Hwf.
  - intros k _. by rewrite elem_of_own_keys_kept, group_passes_iff.
Qed.

Lemma Object_keys_kept o :
  well_formed o ->
  Object_keys (kept acc o) = filter (group_passes acc o) (Object_keys o).
Proof. intros Hwf. by apply Object_keys_filter, own_keys_kept. Qed.

(** The second loop makes one entry of each key that passed. *)
Lemma entries_kept_passing o :
  well_formed o -> entries (kept acc o) = passing acc o.
Proof.
  intros Hwf. unfold entries, passing. rewrite Object_keys_kept by done.
  apply list_fmap_ext. intros i k [Hk _]%list_elem_of_lookup_2%list_elem_of_filter.
  apply group_passes_iff in Hk as (arr & Harr & Hpass).
  rewrite obj_get_kept, Harr by done. simpl.
  apply keepIt_passes in Hpass. by rewrite Hpass.
Qed.

Lemma ranked_passing o :
  well_formed o -> ranked acc o = sort_desc (entry_score acc) (passing acc o).
Proof. intros Hwf. unfold ranked. by rewrite entries_kept_passing. Qed.

(** *** The function run on the object it has left *)

Lemma filtered_all visited o :
  Forall (fun p => keepIt acc p.2 = true /\ best acc p.2 = p.2) o ->
  filtered acc visited o = o.
Proof.
  induction 1 as [|[k arr] o [Hkeep Hbest] _ IH]; simpl; [done|].
  simpl in Hkeep, Hbest. rewrite Hkeep, Hbest, IH. by case_decide.
Qed.

Lemma filtered_none visited o :
  Forall (fun p => p.1 ∈ visited /\ keepIt acc p.2 = false) o ->
  filtered acc visited o = [].
Proof.
  induction 1 as [|[k arr] o [Hk Hkeep] _ IH]; simpl; [done|].
  simpl in Hk, Hkeep. by rewrite decide_True, Hkeep, IH by done.
Qed.

(** What the filtering pass leaves of a group: its first best occurrence,
    alone. *)
Lemma elem_of_kept o k l :
  well_formed o -> kept_nonempty acc o -> (k, l) ∈ kept acc o ->
  exists arr x, obj_get o k = Some arr /\ passes acc arr /\ l = [x] /\
                first_max (score acc) x arr.
Proof.
  intros Hwf Hne Hin.
  apply obj_get_elem_of in Hin; [|by apply well_formed_kept].
  rewrite obj_get_kept in Hin by done.
  destruct (obj_get o k) as [arr|] eqn:Harr; simpl in Hin; [|done].
  destruct (keepIt acc arr) eqn:Hkeep; [|done]. injection Hin as <-.
  apply keepIt_passes in Hkeep.
  destruct (best_first_max acc arr) as (x & Hx & Hmax); [by eapply Hne|].
  by exists arr, x.
Qed.

Lemma passes_singleton arr x :
  passes acc arr -> first_max (score acc) x arr ->
  minimumOccurrence acc <= 1 -> minimumScoreOccurrence acc <= 1 ->
  passes acc [x].
Proof.
  intros [_ Hcount] Hmax Hmin Hmso. split; [simpl; lia|].
  rewrite filter_cons, filter_nil.
  destruct (decide (minimumScore acc <= score acc x)%Q) as [Hx | Hx];
    simpl; [lia|].
  destruct (filter (fun occur => (minimumScore acc <= score acc occur)%Q) arr)
    as [|y l] eqn:Hf; [simpl in Hcount; lia|].
  assert (y ∈ filter (fun occur => (minimumScore acc <= score acc occur)%Q) arr)
    as [Hscore Hy]%list_elem_of_filter by (rewrite Hf; left).
  destruct Hx. eapply Qle_trans; [exact Hscore|].
  by eapply first_max_greatest.
Qed.

Lemma passes_singleton_not x :
  2 <= minimumOccurrence acc \/ 2 <= minimumScoreOccurrence acc ->
  ~ passes acc [x].
Proof.
  intros Hmin [Hlen Hcount]. simpl in Hlen.
  pose proof (length_filter
                (fun occur => (minimumScore acc <= score acc occur)%Q) [x])
    as Hle.
  simpl in Hle. lia.
Qed.

(** Run again on the object it has left, the function leaves it as it is
    and returns the same sequence when neither minimum is above one, and
    deletes every key otherwise. *)
Lemma filterOccurrences_kept o :
  well_formed o -> kept_nonempty acc o ->
  filterOccurrences acc (kept acc o)
  = if decide (minimumOccurrence acc <= 1 /\ minimumScoreOccurrence acc <= 1)
    then Normal (kept acc o, truncate acc (ranked acc o))
    else Normal ([], []).
Proof.
  intros Hwf Hne.
  pose proof (well_formed_kept acc o Hwf) as Hwf'.
  assert (kept_nonempty acc (kept acc o)) as Hne'.
  { intros k l Hl _ ->. apply obj_get_Some in Hl.
    by apply elem_of_kept in Hl as (? & ? & _ & _ & ? & _). }
  rewrite filterOccurrences_ranked by done. unfold ranked.
  case_decide as Hmin.
  - assert (kept acc (kept acc o) = kept acc o) as ->; [|done].
    apply filtered_all, Forall_forall. intros [k l] Hin. simpl.
    apply elem_of_kept in Hin as (arr & x & _ & Hpass & -> & Hmax); [|done..].
    split; [|done]. apply keepIt_passes.
    destruct Hmin. by eapply passes_singleton.
  - assert (kept acc (kept acc o) = []) as ->.
    { apply filtered_none, Forall_forall. intros [k l] Hin. simpl. split.
      - apply list_elem_of_fmap. by exists (k, l).
      - apply elem_of_kept in Hin as (arr & x & _ & _ & -> & _); [|done..].
        apply not_true_is_false. rewrite keepIt_passes.
        apply passes_singleton_not. lia. }
    simpl. by rewrite truncate_nil.
Qed.

End Passing.

(** ** The properties of [filterOccurrences] *)

Lemma well_formed_alice : well_formed alice.
Proof. apply NoDup_singleton. Qed.

Lemma well_formed_a_and_b : well_formed a_and_b.
Proof. apply (bool_decide_unpack _). reflexivity. Qed.

(** C1. For every group map, score function and thresholds, the filtering
    pass of [filterOccurrences] returns, and it leaves a key in
    [occurrences] if and only if the group of the key has at least
    [minimumOccurrence] elements, of which at least [minimumScoreOccurrence]
    have a score of at least [minimumScore] ([passes]).  A key that fails a
    bar is deleted, and contributes nothing to the array the function
    returns: every entry returned is what was kept of a group that passes. *)
Theorem filterOccurrences_keeps_iff_passes {A : Type} (acc : accessor A)
    (o : obj (list A)) :
  well_formed o ->
  exists o',
    filterGroups acc o = Normal o' /\
    (forall k, k ∈ own_keys o' <->
       exists arr, obj_get o k = Some arr /\ passes acc arr) /\
    (forall r, filterOccurrences acc o = Normal r ->
       r.1 = o' /\
       forall e, e ∈ r.2 ->
         exists k arr, obj_get o k = Some arr /\ passes acc arr /\
                       obj_get o' k = Some (occurrences e)).
Proof.
  intros Hwf. exists (kept acc o). split_and!.
  - by apply filterGroups_kept.
  - intros k. by apply elem_of_own_keys_kept.
  - intros r [-> Hsub]%filterOccurrences_Normal; [|done].
    split; [done|]. intros e He%Hsub.
    apply elem_of_entries in He as (k & Hk & Hget).
    apply elem_of_own_keys_kept in Hk as (arr & Harr & Hpass); [|done].
    by exists k, arr.
Qed.

Lemma filterOccurrences_keeps_iff_passes_witness :
  well_formed alice /\
  exists o',
    filterGroups two_above alice = Normal o' /\
    (forall k, k ∈ own_keys o' <->
       exists arr, obj_get alice k = Some arr /\
                   passes two_above arr) /\
    (forall r, filterOccurrences two_above alice = Normal r ->
       r.1 = o' /\
       forall e, e ∈ r.2 ->
         exists k arr, obj_get alice k = Some arr /\
                       passes two_above arr /\
                       obj_get o' k = Some (occurrences e)).
Proof.
  split; [exact well_formed_alice|].
  exact (filterOccurrences_keeps_iff_passes two_above alice
           well_formed_alice).
Defined.

(** Where the properties below ask for a minimum of at least one occurrence
    (the range the data model gives [minimumOccurrence]) or for groups none
    of which is empty (what the collecting loop builds): a group that is an
    empty array is kept when both minimums are zero; nothing is retained
    for it, and its entry has no first occurrence to be ranked by. *)
Example empty_group_kept :
  filterOccurrences (scores 0 0.5 0 None) [("a"%string, [])]
  = Normal ([("a"%string, [])], [{| occurrences := [] |}]).
Proof. vm_compute. reflexivity. Qed.

Example empty_groups_ranked :
  filterOccurrences (scores 0 0.5 0 None) [("a"%string, []); ("b"%string, [])]
  = Throw TypeError.
Proof. vm_compute. reflexivity. Qed.

(** C2. With a minimum of at least one occurrence, or on groups none of
    which is empty, the function returns, and for every key it keeps,
    exactly one occurrence of the group is retained: the first one, in the
    order of the group, among those with the greatest score ([first_max]).
    The entries returned are such singletons. *)
Theorem filterOccurrences_retains_first_max {A : Type} (acc : accessor A)
    (o : obj (list A)) :
  well_formed o ->
  1 <= minimumOccurrence acc \/ no_empty_group o ->
  exists o' result,
    filterOccurrences acc o = Normal (o', result) /\
    (forall k, k ∈ own_keys o' ->
       exists arr x, obj_get o k = Some arr /\ obj_get o' k = Some [x] /\
                     first_max (score acc) x arr) /\
    (forall e, e ∈ result ->
       exists k arr x, obj_get o k = Some arr /\ occurrences e = [x] /\
                       first_max (score acc) x arr).
Proof.
  intros Hwf Hmin.
  pose proof (kept_nonempty_cases acc o Hmin) as Hne.
  exists (kept acc o), (truncate acc (ranked acc o)).
  split; [by apply filterOccurrences_ranked|].
  assert (forall k arr, obj_get o k = Some arr -> passes acc arr ->
            exists x, best acc arr = [x] /\ first_max (score acc) x arr) as Hbest.
  { intros k arr Hk Hpass. apply best_first_max. by eapply Hne. }
  split.
  - intros k (arr & Harr & Hpass)%elem_of_own_keys_kept; [|done].
    destruct (Hbest k arr) as (x & Hx & Hmax); [done..|].
    exists arr, x. split_and!; [done| |done].
    rewrite obj_get_kept, Harr by done. simpl.
    apply keepIt_passes in Hpass. by rewrite Hpass, Hx.
  - intros e He.
    destruct (filterOccurrences_Normal acc o (kept acc o, truncate acc (ranked acc o)))
      as [_ Hsub]; [done | by apply filterOccurrences_ranked |].
    apply Hsub, elem_of_entries_kept in He as (k & arr & Harr & Hpass & He); [|done].
    destruct (Hbest k arr) as (x & Hx & Hmax); [done..|].
    exists k, arr, x. split_and!; [done | congruence | done].
Qed.

Lemma filterOccurrences_retains_first_max_witness :
  well_formed alice /\ (1 <= minimumOccurrence two_above \/ no_empty_group alice) /\
  exists o' result,
    filterOccurrences two_above alice = Normal (o', result) /\
    (forall k, k ∈ own_keys o' ->
       exists arr x, obj_get alice k = Some arr /\ obj_get o' k = Some [x] /\
                     first_max (score two_above) x arr) /\
    (forall e, e ∈ result ->
       exists k arr x, obj_get alice k = Some arr /\ occurrences e = [x] /\
                       first_max (score two_above) x arr).
Proof.
  assert (1 <= minimumOccurrence two_above \/ no_empty_group alice) as Hmin
    by (left; simpl; lia).
  split_and!; [exact well_formed_alice | exact Hmin |].
  exact (filterOccurrences_retains_first_max two_above alice
           well_formed_alice Hmin).
Defined.

(** The scenarios of the specification, run on the code. *)
Example scenario_1 :
  filterOccurrences two_above alice
  = Normal ([("alice"%string, [0.95%Q])], [{| occurrences := [0.95%Q] |}]).
Proof. vm_compute. reflexivity. Qed.

Example scenario_2 :
  filterOccurrences three_above alice = Normal ([], []).
Proof. vm_compute. reflexivity. Qed.

Example scenario_3 :
  filterOccurrences top_1 a_and_b
  = Normal ([("a"%string, [0.9%Q]); ("b"%string, [0.99%Q])],
            [{| occurrences := [0.99%Q] |}]).
Proof. vm_compute. reflexivity. Qed.

Example scenario_4 :
  filterOccurrences top_1 [] = Normal ([], []).
Proof. vm_compute. reflexivity. Qed.

(** C10. When [maximumOccurrenceCount] is [0] the condition of line 335 is
    falsy and nothing is truncated: with a minimum of at least one
    occurrence, or on groups none of which is empty, the function returns
    one entry for each key that passes both bars, so the length of the
    result is the number of these keys, whatever it is. *)
Theorem filterOccurrences_cap_0_no_truncation {A : Type} (acc : accessor A)
    (o : obj (list A)) :
  well_formed o ->
  1 <= minimumOccurrence acc \/ no_empty_group o ->
  maximumOccurrenceCount acc = Some 0 ->
  (forall result, truncate acc result = result) /\
  exists o' result,
    filterOccurrences acc o = Normal (o', result) /\
    result ≡ₚ entries o' /\
    length result = length (own_keys o') /\
    (forall k arr, obj_get o k = Some arr -> passes acc arr ->
       k ∈ own_keys o' /\
       exists e, e ∈ result /\ obj_get o' k = Some (occurrences e)).
Proof.
  intros Hwf Hmin Hcap.
  assert (forall result, truncate acc result = result) as Htr.
  { intros result. unfold truncate. by rewrite Hcap. }
  split; [done|].
  exists (kept acc o), (ranked acc o). split_and!.
  - rewrite <- (Htr (ranked acc o)).
    apply filterOccurrences_ranked; [done|].
    by apply kept_nonempty_cases.
  - apply sort_desc_perm.
  - unfold ranked. by rewrite sort_desc_length, entries_length.
  - intros k arr Harr Hpass.
    assert (k ∈ own_keys (kept acc o)) as Hk
      by (apply elem_of_own_keys_kept; eauto).
    split; [done|].
    destruct (proj2 (obj_get_is_Some (kept acc o) k) Hk) as [l Hl].
    exists {| occurrences := l |}. split; [|done].
    unfold ranked. rewrite sort_desc_perm. apply elem_of_entries. eauto.
Qed.

Lemma filterOccurrences_cap_0_no_truncation_witness :
  well_formed a_and_b /\ (1 <= minimumOccurrence cap_0 \/ no_empty_group a_and_b) /\
  maximumOccurrenceCount cap_0 = Some 0 /\
  (forall result, truncate cap_0 result = result) /\
  exists o' result,
    filterOccurrences cap_0 a_and_b = Normal (o', result) /\
    result ≡ₚ entries o' /\
    length result = length (own_keys o') /\
    (forall k arr, obj_get a_and_b k = Some arr ->
       passes cap_0 arr ->
       k ∈ own_keys o' /\
       exists e, e ∈ result /\ obj_get o' k = Some (occurrences e)).
Proof.
  assert (1 <= minimumOccurrence cap_0 \/ no_empty_group a_and_b) as Hmin
    by (left; simpl; lia).
  split_and!; [exact well_formed_a_and_b | exact Hmin | reflexivity |
               exact (proj1 (filterOccurrences_cap_0_no_truncation
                        cap_0 a_and_b
                        well_formed_a_and_b Hmin eq_refl)) |
               exact (proj2 (filterOccurrences_cap_0_no_truncation
                        cap_0 a_and_b
                        well_formed_a_and_b Hmin eq_refl))].
Defined.

(** C5, as stated, fails: with [maximumOccurrenceCount = 0] and two keys
    that pass, two entries are returned. *)
Lemma filterOccurrences_cap_0_exceeds :
  maximumOccurrenceCount cap_0 = Some 0 /\
  exists o' result,
    filterOccurrences cap_0 a_and_b = Normal (o', result) /\
    ~ Z.of_nat (length result) <= 0.
Proof.
  split; [reflexivity|].
  eexists _, _. split; [vm_compute; reflexivity|]. simpl. lia.
Qed.

(** C5, amended.  With a minimum of at least one occurrence, or on groups
    none of which is empty, the function returns a sequence that holds one
    entry for each key whose group passes both bars and no other
    ([passing]), sorted by the score of the retained occurrence, descending,
    where entries of equal score keep the order the filtering pass left
    them in (the order of [Object.keys]).  Without a
    [maximumOccurrenceCount] the result is this whole ranking; when
    [maximumOccurrenceCount] is a positive [N] the result is exactly the
    first [N] entries of the ranking, so its length is at most [N]. *)
Theorem filterOccurrences_sorted_top_N {A : Type} (acc : accessor A)
    (o : obj (list A)) :
  well_formed o ->
  1 <= minimumOccurrence acc \/ no_empty_group o ->
  exists o' ranking result,
    filterGroups acc o = Normal o' /\
    filterOccurrences acc o = Normal (o', result) /\
    ranking ≡ₚ passing acc o /\
    StronglySorted (descending (entry_score acc)) ranking /\
    (forall q, filter (fun e => entry_score acc e == q)%Q ranking
               = filter (fun e => entry_score acc e == q)%Q (passing acc o)) /\
    result `prefix_of` ranking /\
    (maximumOccurrenceCount acc = None -> result = ranking) /\
    (forall N, maximumOccurrenceCount acc = Some N -> 1 <= N ->
       result = take (Z.to_nat N) ranking /\ Z.of_nat (length result) <= N).
Proof.
  intros Hwf Hmin.
  exists (kept acc o), (ranked acc o), (truncate acc (ranked acc o)).
  split_and!.
  - by apply filterGroups_kept.
  - apply filterOccurrences_ranked; [done|].
    by apply kept_nonempty_cases.
  - rewrite ranked_passing by done. apply sort_desc_perm.
  - apply sort_desc_sorted.
  - intros q. rewrite ranked_passing by done. apply sort_desc_stable.
  - apply truncate_prefix.
  - intros Hcap. unfold truncate. by rewrite Hcap.
  - intros N HN Hpos. unfold truncate. rewrite HN.
    destruct (truthy N && _) eqn:Hc.
    + rewrite Array_slice_take by lia. split; [done|].
      rewrite length_take. lia.
    + apply andb_false_iff in Hc as [Hc | Hc].
      * unfold truthy in Hc. apply negb_false_iff, Z.eqb_eq in Hc. lia.
      * rewrite Z.gtb_ltb in Hc. apply Z.ltb_ge in Hc.
        rewrite take_ge by lia. split; [done | lia].
Qed.

Lemma filterOccurrences_sorted_top_N_witness :
  well_formed a_and_b /\ (1 <= minimumOccurrence top_1 \/ no_empty_group a_and_b) /\
  exists o' ranking result,
    filterGroups top_1 a_and_b = Normal o' /\
    filterOccurrences top_1 a_and_b = Normal (o', result) /\
    ranking ≡ₚ passing top_1 a_and_b /\
    StronglySorted (descending (entry_score top_1)) ranking /\
    (forall q,
       filter (fun e => entry_score top_1 e == q)%Q ranking
       = filter (fun e => entry_score top_1 e == q)%Q
           (passing top_1 a_and_b)) /\
    result `prefix_of` ranking /\
    (maximumOccurrenceCount top_1 = None -> result = ranking) /\
    (forall N, maximumOccurrenceCount top_1 = Some N ->
       1 <= N ->
       result = take (Z.to_nat N) ranking /\ Z.of_nat (length result) <= N).
Proof.
  assert (1 <= minimumOccurrence top_1 \/ no_empty_group a_and_b) as Hmin
    by (left; simpl; lia).
  split_and!; [exact well_formed_a_and_b | exact Hmin |].
  exact (filterOccurrences_sorted_top_N top_1 a_and_b
           well_formed_a_and_b Hmin).
Defined.

(** Both keys of the example pass, "b" with the better score. *)
Example passing_a_and_b :
  passing top_1 a_and_b
  = [{| occurrences := [0.9%Q] |}; {| occurrences := [0.99%Q] |}].
Proof. vm_compute. reflexivity. Qed.

(** C4, as stated, fails: called with [minimumOccurrence = 0] the function
    raises nothing and returns a result. *)
Lemma filterOccurrences_minimumOccurrence_0_returns :
  minimumOccurrence unchecked <= 0 /\
  filterOccurrences unchecked alice
  = Normal ([("alice"%string, [0.95%Q])], [{| occurrences := [0.95%Q] |}]).
Proof. split; [simpl; lia | vm_compute; reflexivity]. Qed.

(** C4, amended.  The function does not look at its thresholds before it
    uses them and raises no error on their account: on groups none of which
    is empty it returns for every configuration.  A [minimumOccurrence] of
    zero or less lets every group pass the first bar, so a key is kept if
    and only if its group passes the bar on scores; a
    [minimumScoreOccurrence] of zero or less lets every group pass the bar
    on scores, so a key is kept if and only if its group is long enough. *)
Theorem filterOccurrences_no_validation {A : Type} (acc : accessor A)
    (o : obj (list A)) :
  well_formed o ->
  no_empty_group o ->
  exists o' result,
    filterOccurrences acc o = Normal (o', result) /\
    (minimumOccurrence acc <= 0 ->
     forall k, k ∈ own_keys o' <->
       exists arr, obj_get o k = Some arr /\
         minimumScoreOccurrence acc <=
           Z.of_nat (length (filter (fun occur =>
                       (minimumScore acc <= score acc occur)%Q) arr))) /\
    (minimumScoreOccurrence acc <= 0 ->
     forall k, k ∈ own_keys o' <->
       exists arr, obj_get o k = Some arr /\
         minimumOccurrence acc <= Z.of_nat (length arr)).
Proof.
  intros Hwf Hne.
  exists (kept acc o), (truncate acc (ranked acc o)). split_and!.
  - apply filterOccurrences_ranked; [done|].
    by apply kept_nonempty_no_empty_group.
  - intros Hmin k. rewrite elem_of_own_keys_kept by done.
    unfold passes. split; intros (arr & Harr & Hpass); exists arr;
      (split; [done|]); [tauto | split; [lia | done]].
  - intros Hmin k. rewrite elem_of_own_keys_kept by done.
    unfold passes. split; intros (arr & Harr & Hpass); exists arr;
      (split; [done|]); [tauto | split; [done | lia]].
Qed.

Lemma no_empty_group_alice : no_empty_group alice.
Proof.
  intros k. unfold alice. simpl. case_decide; [|done].
  intros [=].
Qed.

Lemma filterOccurrences_no_validation_witness :
  well_formed alice /\ no_empty_group alice /\
  exists o' result,
    filterOccurrences unchecked alice = Normal (o', result) /\
    (minimumOccurrence unchecked <= 0 ->
     forall k, k ∈ own_keys o' <->
       exists arr, obj_get alice k = Some arr /\
         minimumScoreOccurrence unchecked <=
           Z.of_nat (length (filter (fun occur =>
                       (minimumScore unchecked <= score unchecked occur)%Q)
                       arr))) /\
    (minimumScoreOccurrence unchecked <= 0 ->
     forall k, k ∈ own_keys o' <->
       exists arr, obj_get alice k = Some arr /\
         minimumOccurrence unchecked <= Z.of_nat (length arr)).
Proof.
  split_and!; [exact well_formed_alice | exact no_empty_group_alice |].
  exact (filterOccurrences_no_validation unchecked alice
           well_formed_alice no_empty_group_alice).
Defined.

Lemma filter_length_mono {T : Type} (P P' : T -> Prop)
    `{!forall x, Decision (P x)} `{!forall x, Decision (P' x)} (l : list T) :
  (forall x, P' x -> P x) -> (length (filter P' l) <= length (filter P l))%nat.
Proof.
  intros HP. induction l as [|x l IH]; simpl; [done|].
  rewrite !filter_cons.
  destruct (decide (P' x)) as [Hx'|Hx'], (decide (P x)) as [Hx|Hx]; simpl;
    [lia | by destruct Hx; apply HP | lia | lia].
Qed.

Lemma passes_antitone {A : Type} (acc acc' : accessor A) arr :
  (forall occur, score acc' occur = score acc occur) ->
  minimumScoreOccurrence acc' = minimumScoreOccurrence acc ->
  minimumOccurrence acc <= minimumOccurrence acc' ->
  (minimumScore acc <= minimumScore acc')%Q ->
  passes acc' arr -> passes acc arr.
Proof.
  intros Hs Hso Ho Hm [Hlen Hcount]. split; [lia|].
  rewrite Hso in Hcount. etransitivity; [exact Hcount|].
  apply inj_le, filter_length_mono. intros x Hx. rewrite Hs in Hx.
  eapply Qle_trans; [exact Hm | exact Hx].
Qed.

(** C7, as stated, fails of the keys returned: under a
    [maximumOccurrenceCount] of 1, raising [minimumOccurrence] from 1 to 2
    puts "b" in the place of "a". *)
Lemma truncated_result_not_included :
  (forall occur, score first_of_2 occur = score first_of_1 occur) /\
  minimumScore first_of_2 = minimumScore first_of_1 /\
  minimumScoreOccurrence first_of_2 = minimumScoreOccurrence first_of_1 /\
  maximumOccurrenceCount first_of_2 = maximumOccurrenceCount first_of_1 /\
  minimumOccurrence first_of_1 <= minimumOccurrence first_of_2 /\
  exists r r',
    filterOccurrences first_of_1 a_then_b = Normal r /\
    filterOccurrences first_of_2 a_then_b = Normal r' /\
    r.2 = [{| occurrences := [0.9%Q] |}] /\
    r'.2 = [{| occurrences := [0.8%Q] |}] /\
    ~ r'.2 ⊆ r.2.
Proof.
  split_and!; [done | done | done | done | simpl; lia |].
  eexists _, _. split_and!; [vm_compute; reflexivity.. |].
  simpl. intros Hsub.
  specialize (Hsub {| occurrences := [0.8%Q] |} ltac:(left)).
  apply list_elem_of_singleton in Hsub. discriminate Hsub.
Qed.

(** C7, amended.  For a fixed group map and score function, raising
    [minimumOccurrence], [minimumScore], or both, never adds a key that
    passes: every key the filtering pass keeps under the higher thresholds
    is kept under the lower ones, with the same retained occurrence.
    (Taking one of the two thresholds unchanged gives the statement for the
    other.)  The entries returned under the higher thresholds are among
    those returned under the lower ones when the run under the lower ones
    truncates nothing (no [maximumOccurrenceCount], or one that cuts no
    entry off); under a [maximumOccurrenceCount] that cuts entries off
    only the length is monotone: the sequence returned gets no longer. *)
Theorem kept_keys_antitone {A : Type} (acc acc' : accessor A)
    (o : obj (list A)) :
  well_formed o ->
  (forall occur, score acc' occur = score acc occur) ->
  minimumScoreOccurrence acc' = minimumScoreOccurrence acc ->
  minimumOccurrence acc <= minimumOccurrence acc' ->
  (minimumScore acc <= minimumScore acc')%Q ->
  exists o1 o2,
    filterGroups acc o = Normal o1 /\
    filterGroups acc' o = Normal o2 /\
    own_keys o2 ⊆ own_keys o1 /\
    (forall k, k ∈ own_keys o2 -> obj_get o2 k = obj_get o1 k) /\
    (maximumOccurrenceCount acc = None ->
     forall r r', filterOccurrences acc o = Normal r ->
                  filterOccurrences acc' o = Normal r' -> r'.2 ⊆ r.2) /\
    (forall r r', filterOccurrences acc o = Normal r ->
                  filterOccurrences acc' o = Normal r' ->
                  length r.2 = length (own_keys o1) -> r'.2 ⊆ r.2) /\
    (maximumOccurrenceCount acc' = maximumOccurrenceCount acc ->
     forall r r', filterOccurrences acc o = Normal r ->
                  filterOccurrences acc' o = Normal r' ->
                  (length r'.2 <= length r.2)%nat).
Proof.
  intros Hwf Hs Hso Ho Hm.
  assert (forall arr, passes acc' arr -> passes acc arr) as Hpass
    by (intros arr; by apply passes_antitone).
  assert (forall arr, best acc' arr = best acc arr) as Hbest.
  { intros arr. apply best_ext. intros x. by rewrite Hs. }
  assert (entries (kept acc' o) ⊆ entries (kept acc o)) as Hentries.
  { intros e (k & arr & Harr & Hp & He)%elem_of_entries_kept; [|done].
    apply elem_of_entries_kept; [done|].
    exists k, arr. split_and!; [done | by apply Hpass | by rewrite <- Hbest]. }
  exists (kept acc o), (kept acc' o). split_and!.
  - by apply filterGroups_kept.
  - by apply filterGroups_kept.
  - intros k. rewrite !elem_of_own_keys_kept by done.
    intros (arr & Harr & Hp). eauto.
  - intros k (arr & Harr & Hp)%elem_of_own_keys_kept; [|done].
    rewrite !obj_get_kept, Harr by done. simpl.
    pose proof (Hpass arr Hp) as Hp'.
    apply keepIt_passes in Hp, Hp'. by rewrite Hp, Hp', Hbest.
  - intros Hcap r r' Hr Hr' e He.
    apply filterOccurrences_Normal in Hr' as [_ Hsub']; [|done].
    apply Hsub', Hentries in He.
    apply filterOccurrences_Normal_perm in Hr
      as (result & Hperm & ->); [|done].
    simpl. unfold truncate. rewrite Hcap. by rewrite Hperm.
  - intros r r' Hr Hr' Hlen e He.
    apply filterOccurrences_Normal in Hr' as [_ Hsub']; [|done].
    apply Hsub', Hentries in He.
    apply filterOccurrences_Normal_perm in Hr
      as (result & Hperm & ->); [|done].
    simpl in *.
    assert (truncate acc result = result) as ->; [|by rewrite Hperm].
    apply prefix_length_eq; [apply truncate_prefix|].
    apply Permutation_length in Hperm.
    rewrite Hlen, Hperm, entries_length. done.
  - intros Hcap r r'
      (result & Hperm & ->)%filterOccurrences_Normal_perm
      (result' & Hperm' & ->)%filterOccurrences_Normal_perm; [|done..].
    simpl. apply Permutation_length in Hperm, Hperm'.
    rewrite !truncate_length, Hcap, Hperm, Hperm', !entries_length.
    assert (length (own_keys (kept acc' o)) <= length (own_keys (kept acc o)))%nat
      as Hlen.
    { apply submseteq_length, NoDup_submseteq; [by apply well_formed_kept|].
      intros k. rewrite !elem_of_own_keys_kept by done.
      intros (arr & Harr & Hp). eauto. }
    destruct (maximumOccurrenceCount acc) as [n|]; [|done].
    unfold truthy, relative_index.
    destruct (Z.eqb_spec n 0), (Z.gtb_spec (Z.of_nat (length (own_keys (kept acc' o)))) n),
      (Z.gtb_spec (Z.of_nat (length (own_keys (kept acc o)))) n),
      (Z.ltb_spec n 0); simpl; lia.
Qed.

Lemma kept_keys_antitone_witness :
  well_formed alice /\
  (forall occur, score stricter occur = score two_above occur) /\
  minimumScoreOccurrence stricter = minimumScoreOccurrence two_above /\
  minimumOccurrence two_above <= minimumOccurrence stricter /\
  (minimumScore two_above <= minimumScore stricter)%Q /\
  exists o1 o2,
    filterGroups two_above alice = Normal o1 /\
    filterGroups stricter alice = Normal o2 /\
    own_keys o2 ⊆ own_keys o1 /\
    (forall k, k ∈ own_keys o2 -> obj_get o2 k = obj_get o1 k) /\
    (maximumOccurrenceCount two_above = None ->
     forall r r', filterOccurrences two_above alice = Normal r ->
                  filterOccurrences stricter alice = Normal r' ->
                  r'.2 ⊆ r.2) /\
    (forall r r', filterOccurrences two_above alice = Normal r ->
                  filterOccurrences stricter alice = Normal r' ->
                  length r.2 = length (own_keys o1) -> r'.2 ⊆ r.2) /\
    (maximumOccurrenceCount stricter = maximumOccurrenceCount two_above ->
     forall r r', filterOccurrences two_above alice = Normal r ->
                  filterOccurrences stricter alice = Normal r' ->
                  (length r'.2 <= length r.2)%nat).
Proof.
  assert (minimumOccurrence two_above <= minimumOccurrence stricter) as Ho
    by (simpl; lia).
  assert (minimumScore two_above <= minimumScore stricter)%Q
    as Hm by (by apply Qle_bool_iff).
  split_and!; [exact well_formed_alice | done | done | exact Ho | exact Hm |].
  exact (kept_keys_antitone two_above stricter alice
           well_formed_alice (fun _ => eq_refl) eq_refl Ho Hm).
Defined.

(** C9, as stated, fails of two runs on the same object: the first run
    has changed its argument, and the second, on the group of one
    occurrence the first has left, returns nothing. *)
Lemma filterOccurrences_on_its_result :
  exists o1 r1 o2 r2,
    filterOccurrences two_above alice = Normal (o1, r1) /\
    filterOccurrences two_above o1 = Normal (o2, r2) /\
    r1 = [{| occurrences := [0.95%Q] |}] /\
    r2 = [] /\
    r1 <> r2.
Proof.
  eexists _, _, _, _. split_and!; [vm_compute; reflexivity.. | done].
Qed.

(** C9, amended.  The outcome of the function is determined by the
    contents of its arguments read as numbers: on identical groups, scores
    and thresholds that are equal numbers give the same object left and
    the same sequence returned, in the same order.  But the function
    changes the object it is given, so a second run on the same object is
    a run on what the first has left, one occurrence for each key that
    passed: it leaves the object as it is and returns the same sequence
    again when neither [minimumOccurrence] nor [minimumScoreOccurrence] is
    above 1, and deletes every key and returns the empty sequence
    otherwise. *)
Theorem filterOccurrences_second_run {A : Type} (acc acc' : accessor A)
    (o : obj (list A)) :
  well_formed o ->
  1 <= minimumOccurrence acc \/ no_empty_group o ->
  (forall occur, score acc occur == score acc' occur)%Q ->
  (minimumScore acc == minimumScore acc')%Q ->
  minimumOccurrence acc = minimumOccurrence acc' ->
  minimumScoreOccurrence acc = minimumScoreOccurrence acc' ->
  maximumOccurrenceCount acc = maximumOccurrenceCount acc' ->
  exists o' result,
    filterOccurrences acc o = Normal (o', result) /\
    filterOccurrences acc' o = Normal (o', result) /\
    (minimumOccurrence acc <= 1 -> minimumScoreOccurrence acc <= 1 ->
     filterOccurrences acc o' = Normal (o', result)) /\
    (2 <= minimumOccurrence acc \/ 2 <= minimumScoreOccurrence acc ->
     filterOccurrences acc o' = Normal ([], [])).
Proof.
  intros Hwf Hmin Hs Hm Ho Hso Hc.
  pose proof (kept_nonempty_cases acc o Hmin) as Hne.
  exists (kept acc o), (truncate acc (ranked acc o)). split_and!.
  - by apply filterOccurrences_ranked.
  - rewrite <- (filterOccurrences_ext acc acc') by done.
    by apply filterOccurrences_ranked.
  - intros Ho1 Hso1. rewrite filterOccurrences_kept by done.
    by rewrite decide_True by done.
  - intros Habove. rewrite filterOccurrences_kept by done.
    by rewrite decide_False by lia.
Qed.

Lemma filterOccurrences_second_run_witness :
  well_formed a_and_b /\
  (1 <= minimumOccurrence top_1 \/ no_empty_group a_and_b) /\
  (forall occur, score top_1 occur == score top_1' occur)%Q /\
  (minimumScore top_1 == minimumScore top_1')%Q /\
  minimumOccurrence top_1 = minimumOccurrence top_1' /\
  minimumScoreOccurrence top_1 = minimumScoreOccurrence top_1' /\
  maximumOccurrenceCount top_1 = maximumOccurrenceCount top_1' /\
  exists o' result,
    filterOccurrences top_1 a_and_b = Normal (o', result) /\
    filterOccurrences top_1' a_and_b = Normal (o', result) /\
    (minimumOccurrence top_1 <= 1 -> minimumScoreOccurrence top_1 <= 1 ->
     filterOccurrences top_1 o' = Normal (o', result)) /\
    (2 <= minimumOccurrence top_1 \/ 2 <= minimumScoreOccurrence top_1 ->
     filterOccurrences top_1 o' = Normal ([], [])).
Proof.
  assert (1 <= minimumOccurrence top_1 \/ no_empty_group a_and_b) as Hmin
    by (left; simpl; lia).
  assert (forall occur, score top_1 occur == score top_1' occur)%Q as Hs
    by (intros occur; simpl; symmetry; apply Qplus_0_r).
  assert (minimumScore top_1 == minimumScore top_1')%Q as Hm by reflexivity.
  split_and!; [exact well_formed_a_and_b | exact Hmin | exact Hs | exact Hm
              | reflexivity.. |].
  exact (filterOccurrences_second_run top_1 top_1' a_and_b
           well_formed_a_and_b Hmin Hs Hm eq_refl eq_refl eq_refl).
Defined.

(** With both minimums at one the second run changes nothing. *)
Example filterOccurrences_a_then_b_again :
  filterOccurrences first_of_1 a_then_b
  = Normal ([("a"%string, [0.9%Q]); ("b"%string, [0.8%Q])],
            [{| occurrences := [0.9%Q] |}]) /\
  filterOccurrences first_of_1 [("a"%string, [0.9%Q]); ("b"%string, [0.8%Q])]
  = Normal ([("a"%string, [0.9%Q]); ("b"%string, [0.8%Q])],
            [{| occurrences := [0.9%Q] |}]).
Proof. split; vm_compute; reflexivity. Qed.

(** ** The collecting loop *)

Lemma forEach_invariant {S X : Type} (P : S -> Prop)
    (body : S -> X -> completion S) l s s' :
  (forall s x s', x ∈ l -> P s -> body s x = Normal s' -> P s') ->
  P s -> forEach body l s = Normal s' -> P s'.
Proof.
  revert s. induction l as [|x l IH]; simpl; intros s Hbody Hs Hrun.
  - by simplify_eq.
  - destruct (body s x) as [s1|] eqn:Hx; simpl in Hrun; [|done].
    apply (IH s1); [|by eapply Hbody; [left|..]|done].
    intros s2 y s3 Hy. apply Hbody. by right.
Qed.

(** [pushOccurrence] appends to the group of [key], which it creates when
    there is none; it throws exactly when [key] is an inherited property
    with no own property over it. *)
Lemma pushOccurrence_Normal map key r :
  key ∉ Object_prototype \/ is_Some (obj_get map key) ->
  pushOccurrence map key r
  = Normal (obj_set map key (default [] (obj_get map key) ++ [r])).
Proof.
  intros Hkey. unfold pushOccurrence, get.
  destruct (obj_get map key) as [arr|] eqn:Hget; simpl.
  - by rewrite Hget.
  - destruct Hkey as [Hkey | [? ?]]; [|done].
    rewrite decide_False by done.
    rewrite obj_get_set, decide_True by done.
    by rewrite obj_set_set.
Qed.

Lemma pushOccurrence_Throw map key r :
  key ∈ Object_prototype -> obj_get map key = None ->
  pushOccurrence map key r = Throw TypeError.
Proof.
  intros Hkey Hget. unfold pushOccurrence, get.
  rewrite Hget. rewrite decide_True by done. by rewrite Hget.
Qed.

Lemma pushOccurrence_inv map key r map' :
  pushOccurrence map key r = Normal map' ->
  map' = obj_set map key (default [] (obj_get map key) ++ [r]).
Proof.
  intros Hpush.
  destruct (decide (key ∈ Object_prototype)) as [Hin | Hin].
  - destruct (obj_get map key) as [arr|] eqn:Hget.
    + rewrite pushOccurrence_Normal in Hpush by (right; by rewrite Hget).
      rewrite Hget in Hpush. by simplify_eq.
    + by rewrite pushOccurrence_Throw in Hpush.
  - rewrite pushOccurrence_Normal in Hpush by by left. by simplify_eq.
Qed.

Lemma identity_name_tagFace req image face :
  identity_name (tagFace req image face) = identity_name face.
Proof. done. Qed.

Lemma tagFace_tagFace req image image' face :
  tagFace req image (tagFace req image' face) = tagFace req image face.
Proof. done. Qed.

Lemma tagKeyword_tagKeyword req image image' keyword :
  tagKeyword req image (tagKeyword req image' keyword)
  = tagKeyword req image keyword.
Proof. done. Qed.

Section Collected.
Context (req : Request.t) (images : list Image.t).
Context (faces0 : gmap ref Face.t) (keywords0 : gmap ref Keyword.t).

Lemma face_kept_tag image (before : option Face.t) face :
  image ∈ images -> identity_name face <> None ->
  face_kept req images before (Some face) ->
  face_kept req images before (Some (tagFace req image face)).
Proof.
  intros Himage Hname. unfold face_kept.
  destruct before as [face0|]; [|done].
  intros [[= <-] | (Hname0 & image0 & Himage0 & [= ->])]; right.
  - split; [done|]. by exists image.
  - split; [done|]. exists image. by rewrite tagFace_tagFace.
Qed.

Lemma keyword_kept_tag image (before : option Keyword.t) keyword :
  image ∈ images ->
  keyword_kept req images before (Some keyword) ->
  keyword_kept req images before (Some (tagKeyword req image keyword)).
Proof.
  intros Himage. unfold keyword_kept.
  destruct before as [keyword0|]; [|done].
  intros [[= <-] | (image0 & Himage0 & [= ->])]; right.
  - by exists image.
  - exists image. by rewrite tagKeyword_tagKeyword.
Qed.

Lemma collectFace_collected image s r s' :
  image ∈ images ->
  r ∈ default [] (Image.analysis image ≫= Analysis.face_detection) ->
  collected req images faces0 keywords0 s ->
  collectFace req image s r = Normal s' ->
  collected req images faces0 keywords0 s'.
Proof.
  intros Himage Hr (Hwfp & Hwfk & Hpeople & Hkeywords & Hfaces & Hkws).
  unfold collectFace.
  destruct (faces s !! r) as [face|] eqn:Hface; [|done].
  destruct (identity_name face) as [name|] eqn:Hname;
    [|intros [= <-]; by split_and!].
  destruct (pushOccurrence _ _ _) as [people|] eqn:Hpush; simpl; [|done].
  apply pushOccurrence_inv in Hpush as ->. intros [= <-].
  split_and!; simpl; [by apply well_formed_set | done | | done | | done].
  - unfold people_named. simpl. intros name0 arr0. rewrite obj_get_set.
    assert (forall name' r',
      face_pushed req images (faces s) name' r' ->
      face_pushed req images (<[r:=tagFace req image face]> (faces s)) name' r')
      as Hstill.
    { intros name' r' (face' & image' & Himage' & Hr' & Hname' & Hface').
      destruct (decide (r = r')) as [<- | Hne].
      - exists face', image. rewrite lookup_insert_eq.
        split_and!; [done..|]. rewrite Hface in Hface'. simplify_eq.
        by rewrite tagFace_tagFace.
      - exists face', image'. by rewrite lookup_insert_ne. }
    case_decide as Hk.
    + intros [= <-]. subst name0. split; [by destruct (default [] (obj_get _ _))|].
      intros r' [Hr' | ->%list_elem_of_singleton]%elem_of_app.
      * destruct (obj_get (peopleNameToOccurrences s) name) as [arr|] eqn:Harr;
          simpl in Hr'; [|by apply elem_of_nil in Hr'].
        apply Hstill. by apply (Hpeople name arr).
      * exists face, image. by rewrite lookup_insert_eq.
    + intros Harr0. destruct (Hpeople name0 arr0 Harr0) as [Hne Hin].
      split; [done|]. intros r' Hr'. by apply Hstill, Hin.
  - intros r0. destruct (decide (r = r0)) as [<- | Hne].
    + rewrite lookup_insert_eq. apply face_kept_tag; [done | congruence |].
      rewrite <- Hface. apply Hfaces.
    + rewrite lookup_insert_ne by done. apply Hfaces.
Qed.

Lemma collectKeyword_collected image s r s' :
  image ∈ images ->
  r ∈ default [] (Image.analysis image ≫= Analysis.image_keywords) ->
  collected req images faces0 keywords0 s ->
  collectKeyword req image s r = Normal s' ->
  collected req images faces0 keywords0 s'.
Proof.
  intros Himage Hr (Hwfp & Hwfk & Hpeople & Hkeywords & Hfaces & Hkws).
  unfold collectKeyword.
  destruct (keywords s !! r) as [keyword|] eqn:Hkeyword; [|done].
  destruct (pushOccurrence _ _ _) as [labels|] eqn:Hpush; simpl; [|done].
  apply pushOccurrence_inv in Hpush as ->. intros [= <-].
  split_and!; simpl; [done | by apply well_formed_set | done | | done |].
  - unfold keywords_classed. simpl. intros class0 arr0. rewrite obj_get_set.
    assert (forall class' r',
      keyword_pushed req images (keywords s) class' r' ->
      keyword_pushed req images
        (<[r:=tagKeyword req image keyword]> (keywords s)) class' r')
      as Hstill.
    { intros class' r' (keyword' & image' & Himage' & Hr' & Hclass' & Hkeyword').
      destruct (decide (r = r')) as [<- | Hne].
      - exists keyword', image. rewrite lookup_insert_eq.
        split_and!; [done..|]. rewrite Hkeyword in Hkeyword'. simplify_eq.
        by rewrite tagKeyword_tagKeyword.
      - exists keyword', image'. by rewrite lookup_insert_ne. }
    case_decide as Hk.
    + intros [= <-]. subst class0. split; [by destruct (default [] (obj_get _ _))|].
      intros r' [Hr' | ->%list_elem_of_singleton]%elem_of_app.
      * destruct (obj_get (keywordToOccurrences s) (Keyword.class keyword))
          as [arr|] eqn:Harr; simpl in Hr'; [|by apply elem_of_nil in Hr'].
        apply Hstill. by apply (Hkeywords _ arr).
      * exists keyword, image. by rewrite lookup_insert_eq.
    + intros Harr0. destruct (Hkeywords class0 arr0 Harr0) as [Hne Hin].
      split; [done|]. intros r' Hr'. by apply Hstill, Hin.
  - intros r0. destruct (decide (r = r0)) as [<- | Hne].
    + rewrite lookup_insert_eq. apply keyword_kept_tag; [done|].
      rewrite <- Hkeyword. apply Hkws.
    + rewrite lookup_insert_ne by done. apply Hkws.
Qed.

Lemma collectImage_collected image s s' :
  image ∈ images ->
  collected req images faces0 keywords0 s ->
  collectImage req s image = Normal s' ->
  collected req images faces0 keywords0 s'.
Proof.
  intros Himage Hs. unfold collectImage.
  destruct (match Image.analysis image ≫= Analysis.face_detection with
            | Some face_detection => _ | None => _ end)
    as [s1|] eqn:Hfaces; simpl; [|done].
  assert (collected req images faces0 keywords0 s1) as Hs1.
  { destruct (Image.analysis image ≫= Analysis.face_detection)
      as [face_detection|] eqn:Hfd; [|by simplify_eq].
    eapply forEach_invariant; [|exact Hs|exact Hfaces].
    intros ? r ? Hr. apply collectFace_collected; [done|]. by rewrite Hfd. }
  destruct (Image.analysis image ≫= Analysis.image_keywords)
    as [image_keywords|] eqn:Hks; [|by intros [= <-]].
  apply forEach_invariant; [|done].
  intros ? r ? Hr. apply collectKeyword_collected; [done|]. by rewrite Hks.
Qed.

End Collected.

(** What holds of the state the loop ends in. *)
Lemma collect_collected req images faces0 keywords0 s :
  collect req images faces0 keywords0 = Normal s ->
  collected req images faces0 keywords0 s.
Proof.
  apply forEach_invariant.
  - intros ? ? ?. apply collectImage_collected.
  - split_and!; simpl; try done.
    + apply NoDup_nil_2.
    + apply NoDup_nil_2.
    + intros r. unfold face_kept. destruct (faces0 !! r); [by left | done].
    + intros r. unfold keyword_kept. destruct (keywords0 !! r); [by left | done].
Qed.

(** *** When the loop returns *)

Lemma forEach_Normal {S X : Type} (P : S -> Prop)
    (body : S -> X -> completion S) l s :
  (forall s x, x ∈ l -> P s -> exists s', body s x = Normal s' /\ P s') ->
  P s -> exists s', forEach body l s = Normal s' /\ P s'.
Proof.
  revert s. induction l as [|x l IH]; simpl; intros s Hbody Hs; [by exists s|].
  destruct (Hbody s x) as (s1 & -> & Hs1); [left | done |]. simpl.
  apply IH; [|done]. intros s2 y Hy. apply Hbody. by right.
Qed.

Lemma collectFace_returns req image faces0 keywords0 s r face :
  faces0 !! r = Some face ->
  (forall name, identity_name face = Some name -> name ∉ Object_prototype) ->
  same_names faces0 keywords0 s ->
  exists s', collectFace req image s r = Normal s' /\
             same_names faces0 keywords0 s'.
Proof.
  intros Hr Hname [Hfaces Hkeywords]. unfold collectFace.
  pose proof (Hfaces r) as Hfr. rewrite Hr in Hfr.
  destruct (faces s !! r) as [face'|] eqn:Hface'; [|done].
  simpl in Hfr. injection Hfr as Hfr.
  destruct (identity_name face') as [name|] eqn:Hname';
    [|by exists s].
  rewrite pushOccurrence_Normal by (left; apply Hname; congruence). simpl.
  eexists. split; [done|]. split; simpl; [|done].
  intros r0. destruct (decide (r = r0)) as [<- | Hne].
  - rewrite lookup_insert_eq, Hr. simpl.
    rewrite identity_name_tagFace. congruence.
  - rewrite lookup_insert_ne by done. apply Hfaces.
Qed.

Lemma collectKeyword_returns req image faces0 keywords0 s r keyword :
  keywords0 !! r = Some keyword ->
  Keyword.class keyword ∉ Object_prototype ->
  same_names faces0 keywords0 s ->
  exists s', collectKeyword req image s r = Normal s' /\
             same_names faces0 keywords0 s'.
Proof.
  intros Hr Hclass [Hfaces Hkeywords]. unfold collectKeyword.
  pose proof (Hkeywords r) as Hkr. rewrite Hr in Hkr.
  destruct (keywords s !! r) as [keyword'|] eqn:Hkeyword'; [|done].
  simpl in Hkr. injection Hkr as Hkr.
  rewrite pushOccurrence_Normal by (left; congruence). simpl.
  eexists. split; [done|]. split; simpl; [done|].
  intros r0. destruct (decide (r = r0)) as [<- | Hne].
  - rewrite lookup_insert_eq, Hr. simpl. congruence.
  - rewrite lookup_insert_ne by done. apply Hkeywords.
Qed.

(** The loop fails on no other input: absent or empty arrays of detections
    are no error. *)
Lemma collect_returns req images faces0 keywords0 :
  collectable images faces0 keywords0 ->
  exists s, collect req images faces0 keywords0 = Normal s.
Proof.
  intros Hok.
  destruct (forEach_Normal (same_names faces0 keywords0) (collectImage req)
              images
              {| faces := faces0; keywords := keywords0;
                 peopleNameToOccurrences := []; keywordToOccurrences := [] |})
    as (s & Hs & _); [|done|by exists s].
  intros s image Himage Hnames. unfold collectImage.
  destruct (Hok image Himage) as [Hfs Hks].
  assert (exists s1,
    match Image.analysis image ≫= Analysis.face_detection with
    | Some face_detection => forEach (collectFace req image) face_detection s
    | None => Normal s
    end = Normal s1 /\ same_names faces0 keywords0 s1) as (s1 & -> & Hs1).
  { destruct (Image.analysis image ≫= Analysis.face_detection)
      as [face_detection|]; [|by exists s].
    apply (forEach_Normal (same_names faces0 keywords0)); [|done].
    intros s2 r Hr Hs2.
    destruct (Hfs face_detection r eq_refl Hr) as (face & Hface & Hname).
    by eapply collectFace_returns. }
  simpl.
  destruct (Image.analysis image ≫= Analysis.image_keywords)
    as [image_keywords|]; [|by exists s1].
  apply (forEach_Normal (same_names faces0 keywords0)); [|done].
  intros s2 r Hr Hs2.
  destruct (Hks image_keywords r eq_refl Hr) as (keyword & Hkeyword & Hclass).
  by eapply collectKeyword_returns.
Qed.

(** ** The summary *)

(** The filters of the handler return on what the loop collects. *)
Lemma summarize_Normal {Video : Type} req (video : Video) images faces0
    keywords0 s :
  collect req images faces0 keywords0 = Normal s ->
  summarize req video images faces0 keywords0
  = Normal
      {| video := video;
         face_detection :=
           truncate (faceAccessor (faces s))
             (ranked (faceAccessor (faces s)) (peopleNameToOccurrences s));
         image_keywords :=
           truncate (keywordAccessor (keywords s))
             (ranked (keywordAccessor (keywords s)) (keywordToOccurrences s));
         detections := (faces s, keywords s) |}.
Proof.
  intros Hs. unfold summarize. rewrite Hs. simpl.
  apply collect_collected in Hs as (Hwfp & Hwfk & _).
  rewrite !filterOccurrences_ranked;
    [done | done | | done |];
    by apply kept_nonempty_minimumOccurrence.
Qed.

(** X3. The summary is computed whenever no detection is [undefined] and no
    name or class is a property of [Object.prototype]: absent or empty arrays
    of detections, and an empty list of images, are no error. *)
Theorem summarize_returns {Video : Type} req (video : Video) images faces0
    keywords0 :
  collectable images faces0 keywords0 ->
  exists out, summarize req video images faces0 keywords0 = Normal out.
Proof.
  intros [s Hs]%(collect_returns req). eexists. by apply summarize_Normal.
Qed.

Lemma summarize_inv {Video : Type} req (video : Video) images faces0
    keywords0 out :
  summarize req video images faces0 keywords0 = Normal out ->
  exists s, collect req images faces0 keywords0 = Normal s /\
            detections out = (faces s, keywords s) /\
            face_detection out
            = truncate (faceAccessor (faces s))
                (ranked (faceAccessor (faces s)) (peopleNameToOccurrences s)).
Proof.
  intros Hout.
  destruct (collect req images faces0 keywords0) as [s|] eqn:Hs.
  - rewrite (summarize_Normal _ _ _ _ _ s) in Hout by done.
    exists s. by simplify_eq.
  - unfold summarize in Hout. by rewrite Hs in Hout.
Qed.

Lemma collectable_keyword_frame : collectable [keyword_frame] ∅ sky_keywords.
Proof.
  intros image ->%list_elem_of_singleton. split; intros l r Hl Hr; [done|].
  injection Hl as <-. apply list_elem_of_singleton in Hr as ->.
  exists (keyword_of "sky"). split; [reflexivity|].
  apply (bool_decide_unpack _). reflexivity.
Qed.

Lemma summarize_returns_witness :
  collectable [keyword_frame] ∅ sky_keywords /\
  exists out, summarize request tt [keyword_frame] ∅ sky_keywords = Normal out.
Proof.
  split; [exact collectable_keyword_frame|].
  exact (summarize_returns request tt [keyword_frame] ∅ sky_keywords
           collectable_keyword_frame).
Defined.

(** C3, as stated, fails: the keywords are not filtered with a minimum of
    5 occurrences and a minimum score of 0.70 (these are the values of the
    [minimumLabel...] options, which no call reads). *)
Lemma keyword_thresholds_not_5_070 :
  thresholds (keywordAccessor ∅) <> (5, 0.70%Q, 1, Some 5).
Proof. unfold thresholds. simpl. intros [= ? ?]. Qed.

(** C3, amended.  The summary filters the face groups with
    [minimumOccurrence = 3], [minimumScore = 0.85],
    [minimumScoreOccurrence = 2] and no [maximumOccurrenceCount], and the
    keyword groups with [minimumOccurrence = 1], [minimumScore = 0.60],
    [minimumScoreOccurrence = 1] and [maximumOccurrenceCount = 5]. *)
Theorem summarize_thresholds {Video : Type} req (video : Video) images faces0
    keywords0 :
  (forall faces, thresholds (faceAccessor faces) = (3, 0.85%Q, 2, None)) /\
  (forall keywords,
     thresholds (keywordAccessor keywords) = (1, 0.60%Q, 1, Some 5)) /\
  summarize req video images faces0 keywords0
  = (s ← collect req images faces0 keywords0;
     people ← filterOccurrences (faceAccessor (faces s))
                (peopleNameToOccurrences s);
     labels ← filterOccurrences (keywordAccessor (keywords s))
                (keywordToOccurrences s);
     Normal {| video := video;
               face_detection := people.2;
               image_keywords := labels.2;
               detections := (faces s, keywords s) |}).
Proof. done. Qed.

(** C6: a keyword whose class is the name of a property of
    [Object.prototype] is appended to no group: the handler throws. *)
Theorem summarize_constructor_keyword_throws :
  summarize request tt [keyword_frame]
    ∅ constructor_keywords
  = Throw TypeError.
Proof. vm_compute. reflexivity. Qed.

Lemma best_subseteq {A : Type} (acc : accessor A) arr : best acc arr ⊆ arr.
Proof.
  unfold best. etransitivity; [apply subseteq_take|].
  by rewrite sort_desc_perm.
Qed.

(** X1. A face with no name, or with the empty name, is pushed to no group, is
    left as it was, and is in no entry of the summary, whatever its
    score. *)
Theorem unnamed_face_excluded {Video : Type} req (video : Video) images
    faces0 keywords0 r face :
  faces0 !! r = Some face ->
  identity_name face = None ->
  (forall s, collect req images faces0 keywords0 = Normal s ->
     faces s !! r = Some face /\
     forall name arr,
       obj_get (peopleNameToOccurrences s) name = Some arr -> r ∉ arr) /\
  (forall out, summarize req video images faces0 keywords0 = Normal out ->
     forall e, e ∈ face_detection out -> r ∉ occurrences e).
Proof.
  intros Hr Hname.
  assert (forall s, collect req images faces0 keywords0 = Normal s ->
     faces s !! r = Some face /\
     forall name arr,
       obj_get (peopleNameToOccurrences s) name = Some arr -> r ∉ arr) as Hs.
  { intros s (_ & _ & Hpeople & _ & Hfaces & _)%collect_collected.
    specialize (Hfaces r). rewrite Hr in Hfaces. simpl in Hfaces.
    destruct Hfaces as [Hface | [? _]]; [|done].
    split; [done|]. intros name arr Harr Hin.
    destruct (Hpeople name arr Harr) as [_ Hnamed].
    destruct (Hnamed r Hin) as (face' & image & _ & _ & Hname' & Hface').
    rewrite Hface in Hface'. simplify_eq.
    rewrite identity_name_tagFace in Hname. congruence. }
  split; [done|].
  intros out (s & Hcollect & _ & Hout)%summarize_inv e He Hin.
  destruct (Hs s Hcollect) as [_ Hgroups].
  pose proof (collect_collected _ _ _ _ _ Hcollect) as (Hwf & _).
  assert (e ∈ entries (kept (faceAccessor (faces s))
                         (peopleNameToOccurrences s))) as Hentry.
  { rewrite Hout in He. revert He. unfold truncate. simpl.
    unfold ranked. by rewrite sort_desc_perm. }
  apply elem_of_entries_kept in Hentry as (k & arr & Harr & _ & Hbest); [|done].
  apply (Hgroups k arr Harr). rewrite Hbest in Hin.
  by apply best_subseteq in Hin.
Qed.

Lemma unnamed_face_excluded_witness :
  unnamed_faces !! 0%nat = Some (face_of None) /\
  identity_name (face_of None) = None /\
  (forall s,
     collect request [face_frame] unnamed_faces ∅
     = Normal s ->
     faces s !! 0%nat = Some (face_of None) /\
     forall name arr,
       obj_get (peopleNameToOccurrences s) name = Some arr -> 0%nat ∉ arr) /\
  (forall out,
     summarize request tt [face_frame]
       unnamed_faces ∅ = Normal out ->
     forall e, e ∈ face_detection out -> 0%nat ∉ occurrences e).
Proof.
  split_and!; [reflexivity | reflexivity | |].
  - exact (proj1 (unnamed_face_excluded request tt
                    [face_frame] unnamed_faces ∅
                    0%nat (face_of None) eq_refl eq_refl)).
  - exact (proj2 (unnamed_face_excluded request tt
                    [face_frame] unnamed_faces ∅
                    0%nat (face_of None) eq_refl eq_refl)).
Defined.

(** ** The images of a video, by frame number *)

Lemma sort_insert_ext_in {T : Type} (compare compare' : T -> T -> completion Q)
    x l :
  (forall y, y ∈ l -> same_sign (compare x y) (compare' x y)) ->
  sort_insert compare x l = sort_insert compare' x l.
Proof.
  induction l as [|y l IH]; simpl; intros Hc; [done|].
  pose proof (Hc y ltac:(left)) as Hy.
  destruct (compare x y) as [c|e], (compare' x y) as [c'|e']; simpl in *;
    [|done..|by subst].
  rewrite IH by (intros; apply Hc; by right).
  destruct (Qlt_le_dec 0 c) as [H|H], (Qlt_le_dec 0 c') as [H'|H']; try done.
  - rewrite Hy in H. by apply Qlt_not_le in H.
  - rewrite Hy in H. by apply Qlt_not_le in H'.
Qed.

Lemma Array_sort_ext_in {T : Type} (compare compare' : T -> T -> completion Q)
    l :
  (forall x y, x ∈ l -> y ∈ l -> same_sign (compare x y) (compare' x y)) ->
  Array_sort compare l = Array_sort compare' l.
Proof.
  induction l as [|x l IH]; simpl; intros Hc; [done|].
  rewrite IH by (intros; apply Hc; by right).
  destruct (Array_sort compare' l) as [s|] eqn:Hs; simpl; [|done].
  apply sort_insert_ext_in. intros y Hy. apply Hc; [left | right].
  apply Array_sort_perm in Hs. by rewrite <- Hs.
Qed.

Lemma StronglySorted_weaken {T : Type} (R R' : T -> T -> Prop) l :
  (forall x y, R x y -> R' x y) -> StronglySorted R l -> StronglySorted R' l.
Proof.
  intros HR. induction 1 as [|x l Hl IH Hx]; constructor; [done|].
  eapply Forall_impl; [exact Hx | auto].
Qed.

Section VideoImagesFacts.
Context {I E : Type} (frame_number : I -> option Q).

Lemma compareFrames_numbered image1 image2 :
  numbered frame_number image1 -> numbered frame_number image2 ->
  same_sign (compareFrames frame_number image1 image2)
    (Normal (- number_of frame_number image2
             - - number_of frame_number image1)%Q).
Proof.
  intros (n1 & H1 & Hn1) (n2 & H2 & _).
  unfold compareFrames, number_of. rewrite H1, H2. simpl.
  destruct (Qeq_dec n1 0); [done|]. ring.
Qed.

(** X6. When the storage fails the handler answers 500 with the error.
    When every image has a frame number other than [0], it answers with the
    same images sorted by ascending frame number, images with the same
    frame number in the order the storage gave them.  (An image with no
    frame number, or with frame number [0], compares equal to every image
    it is compared with as [image1]: the comparison function is then not
    consistent, and the order is left to the engine.) *)
Theorem videoImages_sorted (images : list I) :
  Forall (numbered frame_number) images ->
  (forall e : E, videoImages frame_number (Some e) images
                 = Normal (Status500 e)) /\
  exists sorted,
    videoImages (E := E) frame_number None images = Normal (Send sorted) /\
    sorted ≡ₚ images /\
    StronglySorted
      (fun image1 image2 =>
         number_of frame_number image1 <= number_of frame_number image2)%Q
      sorted /\
    forall n,
      filter (fun image => number_of frame_number image == n)%Q sorted
      = filter (fun image => number_of frame_number image == n)%Q images.
Proof.
  intros Hnum. split; [done|].
  set (key := fun image => (- number_of frame_number image)%Q).
  exists (sort_desc key images). split_and!.
  - unfold videoImages.
    rewrite (Array_sort_ext_in _ (fun x y => Normal (key y - key x)%Q)).
    + by rewrite (Array_sort_desc _ key).
    + rewrite Forall_forall in Hnum. intros x y Hx Hy.
      apply compareFrames_numbered; auto.
  - apply sort_desc_perm.
  - eapply StronglySorted_weaken; [|apply (sort_desc_sorted key)].
    unfold descending, key. intros x y Hxy.
    by apply Qopp_le_compat in Hxy; rewrite !Qopp_involutive in Hxy.
  - intros n.
    rewrite (list_filter_iff _ (fun image => key image == - n)%Q).
    + rewrite sort_desc_stable. apply list_filter_iff.
      intros image. unfold key. split; intros H.
      * by rewrite <- (Qopp_involutive (number_of _ _)), H, Qopp_involutive.
      * by rewrite H.
    + intros image. unfold key. split; intros H.
      * by rewrite H.
      * by rewrite <- (Qopp_involutive (number_of _ _)), H, Qopp_involutive.
Qed.

(** With a frame numbered [0] the comparison function gives two answers. *)
Lemma compareFrames_frame_0 image1 image2 n :
  frame_number image1 = Some 0%Q -> frame_number image2 = Some n ->
  ~ (n == 0)%Q ->
  compareFrames frame_number image1 image2 = Normal 0%Q /\
  compareFrames frame_number image2 image1 = Normal (n - 0)%Q.
Proof.
  intros H1 H2 Hn. unfold compareFrames. rewrite H1, H2.
  destruct (Qeq_dec 0 0) as [_|H0]; [|by destruct H0].
  by destruct (Qeq_dec n 0).
Qed.

End VideoImagesFacts.

Lemma numbered_frames_312 : Forall (numbered Some) frames_312.
Proof.
  repeat constructor; eexists; (split; [reflexivity|]); intros H; inversion H.
Qed.

Lemma videoImages_sorted_witness :
  Forall (numbered Some) frames_312 /\
  (forall e : unit, videoImages Some (Some e) frames_312
                    = Normal (Status500 e)) /\
  exists sorted,
    videoImages (E := unit) Some None frames_312 = Normal (Send sorted) /\
    sorted ≡ₚ frames_312 /\
    StronglySorted
      (fun image1 image2 => number_of Some image1 <= number_of Some image2)%Q
      sorted /\
    forall n,
      filter (fun image => number_of Some image == n)%Q sorted
      = filter (fun image => number_of Some image == n)%Q frames_312.
Proof.
  split; [exact numbered_frames_312|].
  exact (videoImages_sorted (E := unit) Some frames_312 numbered_frames_312).
Defined.

Example videoImages_frames_312 :
  videoImages (E := unit) Some None frames_312
  = Normal (Send [1%Q; 2%Q; 3%Q]).
Proof. vm_compute. reflexivity. Qed.

(** ** The groups, read off the images *)

Section Pushing.
Context (key_of : ref -> option string).
Implicit Types (map : obj (list ref)) (refs : list ref) (key : string).

Lemma obj_get_push_key map r key :
  obj_get (push_key key_of map r) key
  = if decide (key_of r = Some key)
    then Some (default [] (obj_get map key) ++ [r])
    else obj_get map key.
Proof.
  unfold push_key. destruct (key_of r) as [k|] eqn:Hk.
  - rewrite obj_get_set. destruct (decide (k = key)) as [-> | Hne].
    + by rewrite decide_True.
    + rewrite decide_False; [done | congruence].
  - by rewrite decide_False.
Qed.

(** The group of [key] after the pushes: what it held, then the
    detections with that key, in order. *)
Lemma obj_get_foldl_push_key refs map key :
  obj_get (foldl (push_key key_of) map refs) key
  = match obj_get map key with
    | Some arr => Some (arr ++ with_key key_of refs key)
    | None =>
        if decide (with_key key_of refs key = []) then None
        else Some (with_key key_of refs key)
    end.
Proof.
  unfold with_key. revert map.
  induction refs as [|r refs IH]; intros map; simpl.
  - destruct (obj_get map key); [by rewrite app_nil_r | done].
  - rewrite IH, obj_get_push_key, filter_cons.
    destruct (decide (key_of r = Some key)) as [Hr | Hr].
    + destruct (obj_get map key) as [arr|]; simpl.
      * by rewrite <- app_assoc.
      * done.
    + done.
Qed.

Lemma own_keys_push_key map r :
  own_keys (push_key key_of map r)
  = match key_of r with
    | Some key => add_key (own_keys map) key
    | None => own_keys map
    end.
Proof.
  unfold push_key, add_key. destruct (key_of r) as [key|]; [|done].
  destruct (decide (key ∈ own_keys map)) as [Hin | Hin].
  - by apply own_keys_set.
  - by apply own_keys_set_new.
Qed.

Lemma own_keys_foldl_push_key refs map :
  own_keys (foldl (push_key key_of) map refs)
  = foldl add_key (own_keys map) (omap key_of refs).
Proof.
  revert map. induction refs as [|r refs IH]; intros map; simpl; [done|].
  rewrite IH, own_keys_push_key. by destruct (key_of r).
Qed.

End Pushing.

Lemma name_of_same_names faces0 keywords0 s r face :
  same_names faces0 keywords0 s -> faces s !! r = Some face ->
  name_of faces0 r = identity_name face.
Proof.
  intros [Hfaces _] Hr. specialize (Hfaces r). rewrite Hr in Hfaces.
  unfold name_of. destruct (faces0 !! r) as [face0|]; [|done].
  simpl in *. congruence.
Qed.

Lemma class_of_same_names faces0 keywords0 s r keyword :
  same_names faces0 keywords0 s -> keywords s !! r = Some keyword ->
  class_of keywords0 r = Some (Keyword.class keyword).
Proof.
  intros [_ Hkeywords] Hr. specialize (Hkeywords r). rewrite Hr in Hkeywords.
  unfold class_of. by rewrite <- Hkeywords.
Qed.


Lemma face_refs_cons image images :
  face_refs (image :: images) = face_refs [image] ++ face_refs images.
Proof. unfold face_refs. by rewrite bind_cons, bind_singleton. Qed.

Lemma keyword_refs_cons image images :
  keyword_refs (image :: images) = keyword_refs [image] ++ keyword_refs images.
Proof. unfold keyword_refs. by rewrite bind_cons, bind_singleton. Qed.

Section Pushed.
Context (req : Request.t) (faces0 : gmap ref Face.t)
  (keywords0 : gmap ref Keyword.t).

Lemma pushed_refl s : same_names faces0 keywords0 s -> pushed faces0 keywords0 [] [] s s.
Proof. by intros Hs. Qed.

Lemma pushed_trans fs1 ks1 fs2 ks2 s1 s2 s3 :
  pushed faces0 keywords0 fs1 ks1 s1 s2 ->
  pushed faces0 keywords0 fs2 ks2 s2 s3 ->
  pushed faces0 keywords0 (fs1 ++ fs2) (ks1 ++ ks2) s1 s3.
Proof.
  intros (_ & Hp1 & Hk1) (Hs3 & Hp2 & Hk2). split_and!; [done| |].
  - by rewrite foldl_app, <- Hp1.
  - by rewrite foldl_app, <- Hk1.
Qed.

Lemma collectFace_pushed image s r s' :
  same_names faces0 keywords0 s ->
  collectFace req image s r = Normal s' ->
  pushed faces0 keywords0 [r] [] s s'.
Proof.
  intros Hs. unfold collectFace.
  destruct (faces s !! r) as [face|] eqn:Hface; [|done].
  pose proof (name_of_same_names _ _ _ _ _ Hs Hface) as Hname.
  unfold pushed. simpl. unfold push_key. rewrite Hname.
  destruct (identity_name face) as [name|] eqn:Hn;
    [|by intros [= <-]].
  destruct (pushOccurrence _ _ _) as [people|] eqn:Hpush; simpl; [|done].
  apply pushOccurrence_inv in Hpush as ->. intros [= <-]. simpl.
  split_and!; [|done..]. destruct Hs as [Hfaces Hkeywords].
  split; simpl; [|done]. intros r0.
  destruct (decide (r = r0)) as [<- | Hne].
  - rewrite lookup_insert_eq, <- Hfaces, Hface. simpl.
    by rewrite identity_name_tagFace.
  - rewrite lookup_insert_ne by done. apply Hfaces.
Qed.

Lemma collectKeyword_pushed image s r s' :
  same_names faces0 keywords0 s ->
  collectKeyword req image s r = Normal s' ->
  pushed faces0 keywords0 [] [r] s s'.
Proof.
  intros Hs. unfold collectKeyword.
  destruct (keywords s !! r) as [keyword|] eqn:Hkeyword; [|done].
  pose proof (class_of_same_names _ _ _ _ _ Hs Hkeyword) as Hclass.
  unfold pushed. simpl. unfold push_key. rewrite Hclass.
  destruct (pushOccurrence _ _ _) as [labels|] eqn:Hpush; simpl; [|done].
  apply pushOccurrence_inv in Hpush as ->. intros [= <-]. simpl.
  split_and!; [|done..]. destruct Hs as [Hfaces Hkeywords].
  split; simpl; [done|]. intros r0.
  destruct (decide (r = r0)) as [<- | Hne].
  - by rewrite lookup_insert_eq, <- Hkeywords, Hkeyword.
  - rewrite lookup_insert_ne by done. apply Hkeywords.
Qed.

Lemma forEach_collectFace_pushed image refs s s' :
  same_names faces0 keywords0 s ->
  forEach (collectFace req image) refs s = Normal s' ->
  pushed faces0 keywords0 refs [] s s'.
Proof.
  revert s. induction refs as [|r refs IH]; simpl; intros s Hs Hrun.
  - simplify_eq. by apply pushed_refl.
  - destruct (collectFace req image s r) as [s1|] eqn:Hr; simpl in Hrun; [|done].
    pose proof (collectFace_pushed _ _ _ _ Hs Hr) as H1.
    apply (pushed_trans [r] [] refs [] s s1 s'); [done|].
    apply IH; [apply H1 | done].
Qed.

Lemma forEach_collectKeyword_pushed image refs s s' :
  same_names faces0 keywords0 s ->
  forEach (collectKeyword req image) refs s = Normal s' ->
  pushed faces0 keywords0 [] refs s s'.
Proof.
  revert s. induction refs as [|r refs IH]; simpl; intros s Hs Hrun.
  - simplify_eq. by apply pushed_refl.
  - destruct (collectKeyword req image s r) as [s1|] eqn:Hr; simpl in Hrun;
      [|done].
    pose proof (collectKeyword_pushed _ _ _ _ Hs Hr) as H1.
    apply (pushed_trans [] [r] [] refs s s1 s'); [done|].
    apply IH; [apply H1 | done].
Qed.

Lemma collectImage_pushed image s s' :
  same_names faces0 keywords0 s ->
  collectImage req s image = Normal s' ->
  pushed faces0 keywords0 (face_refs [image]) (keyword_refs [image]) s s'.
Proof.
  intros Hs. unfold collectImage, face_refs, keyword_refs.
  rewrite !bind_singleton.
  destruct (match Image.analysis image ≫= Analysis.face_detection with
            | Some face_detection => _ | None => _ end)
    as [s1|] eqn:Hfaces; simpl; [|done].
  intros Hkeywords.
  assert (pushed faces0 keywords0
            (default [] (Image.analysis image ≫= Analysis.face_detection)) []
            s s1) as H1.
  { destruct (Image.analysis image ≫= Analysis.face_detection); simpl.
    - by eapply forEach_collectFace_pushed.
    - simplify_eq. by apply pushed_refl. }
  assert (pushed faces0 keywords0 []
            (default [] (Image.analysis image ≫= Analysis.image_keywords))
            s1 s') as H2.
  { destruct (Image.analysis image ≫= Analysis.image_keywords); simpl.
    - eapply forEach_collectKeyword_pushed; [apply H1 | done].
    - simplify_eq. apply pushed_refl, H1. }
  pose proof (pushed_trans _ _ _ _ _ _ _ H1 H2) as H.
  by rewrite app_nil_r in H.
Qed.

Lemma forEach_collectImage_pushed images s s' :
  same_names faces0 keywords0 s ->
  forEach (collectImage req) images s = Normal s' ->
  pushed faces0 keywords0 (face_refs images) (keyword_refs images) s s'.
Proof.
  revert s. induction images as [|image images IH]; intros s Hs Hrun;
    simpl in Hrun.
  - simplify_eq. by apply pushed_refl.
  - destruct (collectImage req s image) as [s1|] eqn:Hr; simpl in Hrun;
      [|done].
    pose proof (collectImage_pushed _ _ _ Hs Hr) as H1.
    pose proof (IH s1 ltac:(apply H1) Hrun) as H2.
    pose proof (pushed_trans _ _ _ _ _ _ _ H1 H2) as H.
    by rewrite face_refs_cons, keyword_refs_cons.
Qed.

End Pushed.

(** The maps the loop ends with are the pushes of the detections of the
    images, in order. *)
Lemma collect_pushed req images faces0 keywords0 s :
  collect req images faces0 keywords0 = Normal s ->
  peopleNameToOccurrences s
  = foldl (push_key (name_of faces0)) [] (face_refs images) /\
  keywordToOccurrences s
  = foldl (push_key (class_of keywords0)) [] (keyword_refs images).
Proof.
  intros Hs.
  apply (forEach_collectImage_pushed req faces0 keywords0) in Hs
    as (_ & Hp & Hk); [done|]. by split.
Qed.

Lemma obj_get_pushed (key_of : ref -> option string) refs key arr :
  obj_get (foldl (push_key key_of) [] refs) key = Some arr <->
  arr = with_key key_of refs key /\ arr <> [].
Proof.
  rewrite obj_get_foldl_push_key. simpl.
  destruct (decide (with_key key_of refs key = [])) as [Hnil | Hnil].
  - split; [done | intros [-> ?]; done].
  - split; [intros [= <-]; done | intros [-> _]; done].
Qed.

Lemma collect_people req images faces0 keywords0 s name arr :
  collect req images faces0 keywords0 = Normal s ->
  obj_get (peopleNameToOccurrences s) name = Some arr <->
  arr = with_key (name_of faces0) (face_refs images) name /\ arr <> [].
Proof.
  intros [Hp _]%collect_pushed. rewrite Hp. apply obj_get_pushed.
Qed.

Lemma collect_keywords req images faces0 keywords0 s class arr :
  collect req images faces0 keywords0 = Normal s ->
  obj_get (keywordToOccurrences s) class = Some arr <->
  arr = with_key (class_of keywords0) (keyword_refs images) class /\
  arr <> [].
Proof.
  intros [_ Hk]%collect_pushed. rewrite Hk. apply obj_get_pushed.
Qed.

(** X7. When the collecting loop returns, the group of a name holds exactly
    the face detections of that name, in the order of the images and, within
    an image, of its [face_detection] array; and there is a group for a name
    if and only if some face has it.  [Object.keys], through which the
    filter reads the groups, lists the names that are array indices first,
    by ascending value, and then the other names in the order they were
    first seen.  The same holds of the keywords and their classes. *)
Theorem collect_groups req images faces0 keywords0 s :
  collect req images faces0 keywords0 = Normal s ->
  (forall name arr,
     obj_get (peopleNameToOccurrences s) name = Some arr <->
     arr = with_key (name_of faces0) (face_refs images) name /\ arr <> []) /\
  keys_in_order (Object_keys (peopleNameToOccurrences s))
    (first_seen (omap (name_of faces0) (face_refs images))) /\
  (forall class arr,
     obj_get (keywordToOccurrences s) class = Some arr <->
     arr = with_key (class_of keywords0) (keyword_refs images) class /\
     arr <> []) /\
  keys_in_order (Object_keys (keywordToOccurrences s))
    (first_seen (omap (class_of keywords0) (keyword_refs images))).
Proof.
  intros Hs. split_and!.
  - intros name arr. by eapply collect_people.
  - assert (first_seen (omap (name_of faces0) (face_refs images))
            = own_keys (peopleNameToOccurrences s)) as ->
      by (apply collect_pushed in Hs as [-> _];
          by rewrite own_keys_foldl_push_key).
    apply Object_keys_in_order.
  - intros class arr. by eapply collect_keywords.
  - assert (first_seen (omap (class_of keywords0) (keyword_refs images))
            = own_keys (keywordToOccurrences s)) as ->
      by (apply collect_pushed in Hs as [_ ->];
          by rewrite own_keys_foldl_push_key).
    apply Object_keys_in_order.
Qed.

Lemma collect_three_frames :
  collect request three_frames three_faces sky_keywords
  = Normal three_frames_state.
Proof. vm_compute. reflexivity. Qed.

Lemma collect_groups_witness :
  collect request three_frames three_faces sky_keywords
  = Normal three_frames_state /\
  (forall name arr,
     obj_get (peopleNameToOccurrences three_frames_state) name = Some arr <->
     arr = with_key (name_of three_faces) (face_refs three_frames) name /\
     arr <> []) /\
  keys_in_order (Object_keys (peopleNameToOccurrences three_frames_state))
    (first_seen (omap (name_of three_faces) (face_refs three_frames))) /\
  (forall class arr,
     obj_get (keywordToOccurrences three_frames_state) class = Some arr <->
     arr = with_key (class_of sky_keywords) (keyword_refs three_frames) class /\
     arr <> []) /\
  keys_in_order (Object_keys (keywordToOccurrences three_frames_state))
    (first_seen (omap (class_of sky_keywords) (keyword_refs three_frames))).
Proof.
  split; [exact collect_three_frames|].
  exact (collect_groups request three_frames three_faces sky_keywords
           three_frames_state collect_three_frames).
Defined.

(** ** The summary, read off the images *)

Section SameScores.
Context {A : Type} (acc acc' : accessor A).
Context (Hscore : forall occur, score acc occur = score acc' occur).
Context (HminimumScore : minimumScore acc = minimumScore acc').
Context (HminimumOccurrence : minimumOccurrence acc = minimumOccurrence acc').
Context (HminimumScoreOccurrence :
           minimumScoreOccurrence acc = minimumScoreOccurrence acc').

Lemma kept_same_scores o : kept acc o = kept acc' o.
Proof.
  unfold kept. generalize (own_keys o). intros visited.
  induction o as [|[k arr] o IH]; simpl; [done|].
  rewrite IH, (keepIt_ext acc acc'), (best_ext acc acc'); try done;
    try (intros; by rewrite Hscore); by rewrite HminimumScore.
Qed.

Lemma entry_score_same_scores e : entry_score acc e = entry_score acc' e.
Proof. unfold entry_score. by destruct (element_0 _). Qed.

Lemma ranked_same_scores o : ranked acc o = ranked acc' o.
Proof.
  unfold ranked. rewrite kept_same_scores.
  apply sort_desc_ext. intros e. by rewrite entry_score_same_scores.
Qed.

End SameScores.

(** The scores the filters read are those of the detections as they were
    before the loop. *)
Lemma faceScore_collected req images faces0 keywords0 s r :
  collected req images faces0 keywords0 s ->
  faceScore (faces s) r = faceScore faces0 r.
Proof.
  intros (_ & _ & _ & _ & Hfaces & _). specialize (Hfaces r).
  unfold faceScore, face_kept in *.
  destruct (faces0 !! r) as [face|]; [|by rewrite Hfaces].
  by destruct Hfaces as [-> | (_ & image & _ & ->)].
Qed.

Lemma labelScore_collected req images faces0 keywords0 s r :
  collected req images faces0 keywords0 s ->
  labelScore (keywords s) r = labelScore keywords0 r.
Proof.
  intros (_ & _ & _ & _ & _ & Hkeywords). specialize (Hkeywords r).
  unfold labelScore, keyword_kept in *.
  destruct (keywords0 !! r) as [keyword|]; [|by rewrite Hkeywords].
  by destruct Hkeywords as [-> | (image & _ & ->)].
Qed.

(** What the summary returns, in terms of the store it was given. *)
Lemma summarize_ranked {Video : Type} req (video : Video) images faces0
    keywords0 out :
  summarize req video images faces0 keywords0 = Normal out ->
  exists s,
    collect req images faces0 keywords0 = Normal s /\
    face_detection out
    = ranked (faceAccessor faces0) (peopleNameToOccurrences s) /\
    image_keywords out
    = truncate (keywordAccessor keywords0)
        (ranked (keywordAccessor keywords0) (keywordToOccurrences s)).
Proof.
  intros Hout.
  destruct (collect req images faces0 keywords0) as [s|] eqn:Hs;
    [|unfold summarize in Hout; by rewrite Hs in Hout].
  rewrite (summarize_Normal _ _ _ _ _ s) in Hout by done.
  injection Hout as <-. simpl. exists s. split; [done|].
  pose proof (collect_collected _ _ _ _ _ Hs) as Hc.
  rewrite (ranked_same_scores (faceAccessor (faces s)) (faceAccessor faces0)),
    (ranked_same_scores (keywordAccessor (keywords s))
       (keywordAccessor keywords0)); try done.
  - intros r. by eapply labelScore_collected.
  - intros r. by eapply faceScore_collected.
Qed.

Section Keyed.
Context (acc : accessor ref) (key_of : ref -> option string)
  (refs : list ref) (o : obj (list ref)).
Context (Hwf : well_formed o).
Context (Hgroups : forall key arr,
           obj_get o key = Some arr <->
           arr = with_key key_of refs key /\ arr <> []).

Lemma kept_nonempty_keyed : kept_nonempty acc o.
Proof. intros key arr Harr _. by apply Hgroups in Harr as [_ ?]. Qed.

Lemma entries_kept_keyed e :
  e ∈ entries (kept acc o) ->
  exists key x,
    occurrences e = [x] /\ key_of x = Some key /\
    first_max (score acc) x (with_key key_of refs key) /\
    passes acc (with_key key_of refs key).
Proof.
  intros (key & arr & Harr & Hpass & He)%elem_of_entries_kept; [|done].
  apply Hgroups in Harr as [-> Hne].
  destruct (best_first_max acc _ Hne) as (x & Hx & Hmax).
  exists key, x. split_and!; [congruence | | done | done].
  apply first_max_elem_of in Hmax.
  by apply list_elem_of_filter in Hmax as [? _].
Qed.

Lemma entry_key_kept_keyed e :
  e ∈ entries (kept acc o) ->
  exists key, entry_key key_of e = Some key /\
              obj_get (kept acc o) key = Some (occurrences e).
Proof.
  intros He.
  destruct (entries_kept_keyed e He) as (key & x & Hx & Hkey & _).
  apply elem_of_entries in He as (key' & Hin & Hget).
  exists key'. split; [|done].
  unfold entry_key. rewrite Hx. simpl.
  rewrite obj_get_kept in Hget by done.
  destruct (obj_get o key') as [arr|] eqn:Harr; simpl in Hget; [|done].
  destruct (keepIt acc arr); [|done].
  apply Hgroups in Harr as [-> _].
  assert (x ∈ best acc (with_key key_of refs key')) as Hbest
    by (injection Hget as ->; rewrite Hx; left).
  apply best_subseteq, list_elem_of_filter in Hbest as [? _]. done.
Qed.

Lemma entries_kept_passes key :
  passes acc (with_key key_of refs key) -> with_key key_of refs key <> [] ->
  exists e, e ∈ entries (kept acc o) /\ entry_key key_of e = Some key.
Proof.
  intros Hpass Hne.
  assert (obj_get o key = Some (with_key key_of refs key)) as Harr
    by by apply Hgroups.
  exists {| occurrences := best acc (with_key key_of refs key) |}.
  assert ({| occurrences := best acc (with_key key_of refs key) |}
          ∈ entries (kept acc o)) as He.
  { apply elem_of_entries_kept; [done|]. eauto. }
  split; [done|].
  destruct (entry_key_kept_keyed _ He) as (key' & Hkey' & Hget).
  rewrite Hkey'. f_equal.
  destruct (best_first_max acc _ Hne) as (x & Hx & Hmax).
  unfold entry_key in Hkey'. simpl in Hkey'. rewrite Hx in Hkey'.
  simpl in Hkey'.
  apply first_max_elem_of, list_elem_of_filter in Hmax as [Hk _]. congruence.
Qed.

Lemma NoDup_entry_key_kept :
  NoDup (entry_key key_of <$> entries (kept acc o)).
Proof.
  assert (entry_key key_of <$> entries (kept acc o)
          = Some <$> Object_keys (kept acc o)) as ->.
  { unfold entries. rewrite <- list_fmap_compose.
    apply Forall_fmap_ext, Forall_forall. intros key Hkey. simpl.
    assert ({| occurrences := default [] (obj_get (kept acc o) key) |}
            ∈ entries (kept acc o)) as He.
    { unfold entries. apply list_elem_of_fmap. by exists key. }
    destruct (entry_key_kept_keyed _ He) as (key' & Hkey' & Hget).
    rewrite Hkey'. f_equal. simpl in Hget.
    destruct (obj_get_Object_keys _ _ Hkey) as [l Hl].
    rewrite Hl in Hget. simpl in Hget.
    destruct (entries_kept_keyed _ He) as (k & x & Hx & _).
    simpl in Hx. rewrite Hl in Hx. simpl in Hx. subst l.
    rewrite !obj_get_kept in Hl, Hget by done.
    destruct (obj_get o key) as [arr|] eqn:Harr; simpl in Hl; [|done].
    destruct (obj_get o key') as [arr'|] eqn:Harr'; simpl in Hget; [|done].
    destruct (keepIt acc arr), (keepIt acc arr'); try done.
    apply Hgroups in Harr as [-> _]. apply Hgroups in Harr' as [-> _].
    assert (x ∈ with_key key_of refs key) as H1
      by (apply (best_subseteq acc); injection Hl as ->; left).
    assert (x ∈ with_key key_of refs key') as H2
      by (apply (best_subseteq acc); injection Hget as ->; left).
    apply list_elem_of_filter in H1 as [H1 _].
    apply list_elem_of_filter in H2 as [H2 _]. congruence. }
  apply (NoDup_fmap_2 Some), NoDup_Object_keys.
  by apply well_formed_kept.
Qed.

Lemma NoDup_entry_key_prefix (result : list (entry ref)) :
  result `prefix_of` ranked acc o -> NoDup (entry_key key_of <$> result).
Proof.
  intros [rest Hrest].
  assert (NoDup (entry_key key_of <$> ranked acc o)) as Hnd.
  { unfold ranked. rewrite sort_desc_perm. apply NoDup_entry_key_kept. }
  rewrite Hrest, fmap_app in Hnd. by apply NoDup_app in Hnd as [? _].
Qed.

End Keyed.

(** X8. In a summary, a person is returned if and only if the faces of
    that name, over all the images, number at least 3, of which at least 2
    with a score of at least 0.85.  The occurrence returned for a person is
    the first of the faces of that name with the greatest score, no person
    is returned twice, and the persons are in descending order of these
    scores. *)
Theorem summarize_faces {Video : Type} req (video : Video) images faces0
    keywords0 out :
  summarize req video images faces0 keywords0 = Normal out ->
  (forall e, e ∈ face_detection out ->
     exists name r,
       occurrences e = [r] /\ name_of faces0 r = Some name /\
       first_max (faceScore faces0) r
         (with_key (name_of faces0) (face_refs images) name)) /\
  (forall name,
     (exists e, e ∈ face_detection out /\
                entry_key (name_of faces0) e = Some name) <->
     3 <= Z.of_nat (length (with_key (name_of faces0) (face_refs images) name))
     /\ 2 <= Z.of_nat (length (filter (fun r => (0.85 <= faceScore faces0 r)%Q)
                  (with_key (name_of faces0) (face_refs images) name)))) /\
  NoDup (entry_key (name_of faces0) <$> face_detection out) /\
  StronglySorted (descending (entry_score (faceAccessor faces0)))
    (face_detection out).
Proof.
  intros (s & Hs & -> & _)%summarize_ranked.
  pose proof (collect_collected _ _ _ _ _ Hs) as (Hwf & _).
  assert (forall name arr,
            obj_get (peopleNameToOccurrences s) name = Some arr <->
            arr = with_key (name_of faces0) (face_refs images) name /\
            arr <> []) as Hgroups
    by (intros; by eapply collect_people).
  set (acc := faceAccessor faces0).
  assert (forall e, e ∈ ranked acc (peopleNameToOccurrences s) <->
                    e ∈ entries (kept acc (peopleNameToOccurrences s))) as Hin.
  { intros e. unfold ranked. by rewrite sort_desc_perm. }
  split_and!.
  - intros e He%Hin.
    destruct (entries_kept_keyed acc _ _ _ Hwf Hgroups e He)
      as (name & r & Hr & Hname & Hmax & _).
    by exists name, r.
  - intros name. split.
    + intros (e & He%Hin & Hkey).
      destruct (entries_kept_keyed acc _ _ _ Hwf Hgroups e He)
        as (name' & r & Hr & Hname & _ & Hpass).
      unfold entry_key in Hkey. rewrite Hr in Hkey. simpl in Hkey.
      assert (name' = name) as -> by congruence. exact Hpass.
    + intros Hpass.
      destruct (entries_kept_passes acc _ _ _ Hwf Hgroups name Hpass)
        as (e & He & Hkey).
      { intros Hnil. destruct Hpass as [Hlen _]. rewrite Hnil in Hlen.
        simpl in Hlen. lia. }
      exists e. by rewrite Hin.
  - eapply NoDup_entry_key_prefix; done.
  - apply sort_desc_sorted.
Qed.

(** X9. In a summary, the keywords returned are the first 5 of a ranking,
    by descending score, of the classes that have a detection with a score
    of at least 0.60, each class once, represented by the first of its
    detections with the greatest score. *)
Theorem summarize_keywords {Video : Type} req (video : Video) images faces0
    keywords0 out :
  summarize req video images faces0 keywords0 = Normal out ->
  exists ranking,
    image_keywords out = take 5 ranking /\
    StronglySorted (descending (entry_score (keywordAccessor keywords0)))
      ranking /\
    NoDup (entry_key (class_of keywords0) <$> ranking) /\
    (forall e, e ∈ ranking ->
       exists class r,
         occurrences e = [r] /\ class_of keywords0 r = Some class /\
         first_max (labelScore keywords0) r
           (with_key (class_of keywords0) (keyword_refs images) class) /\
         (0.60 <= labelScore keywords0 r)%Q) /\
    (forall class r,
       r ∈ keyword_refs images -> class_of keywords0 r = Some class ->
       (0.60 <= labelScore keywords0 r)%Q ->
       exists e, e ∈ ranking /\
                 entry_key (class_of keywords0) e = Some class).
Proof.
  intros (s & Hs & _ & ->)%summarize_ranked.
  pose proof (collect_collected _ _ _ _ _ Hs) as (_ & Hwf & _).
  assert (forall class arr,
            obj_get (keywordToOccurrences s) class = Some arr <->
            arr = with_key (class_of keywords0) (keyword_refs images) class /\
            arr <> []) as Hgroups
    by (intros; by eapply collect_keywords).
  set (acc := keywordAccessor keywords0).
  exists (ranked acc (keywordToOccurrences s)).
  assert (forall e, e ∈ ranked acc (keywordToOccurrences s) <->
                    e ∈ entries (kept acc (keywordToOccurrences s))) as Hin.
  { intros e. unfold ranked. by rewrite sort_desc_perm. }
  split_and!.
  - unfold truncate. simpl.
    destruct (Z.gtb_spec (Z.of_nat (length (ranked acc (keywordToOccurrences s)))) 5).
    + by rewrite Array_slice_take.
    + rewrite take_ge; [done | lia].
  - apply sort_desc_sorted.
  - eapply NoDup_entry_key_prefix; done.
  - intros e He%Hin.
    destruct (entries_kept_keyed acc _ _ _ Hwf Hgroups e He)
      as (class & r & Hr & Hclass & Hmax & [_ Hcount]).
    exists class, r. split_and!; [done..|].
    simpl in Hcount.
    destruct (filter _ _) as [|r' l] eqn:Hfilter; [simpl in Hcount; lia|].
    assert (r' ∈ r' :: l) as Hr' by left.
    rewrite <- Hfilter in Hr'. apply list_elem_of_filter in Hr' as [Hscore Hr'].
    eapply Qle_trans; [exact Hscore|].
    exact (first_max_greatest _ _ _ _ Hmax Hr').
  - intros class r Hr Hclass Hscore.
    assert (r ∈ with_key (class_of keywords0) (keyword_refs images) class)
      as Hgroup by by apply list_elem_of_filter.
    destruct (entries_kept_passes acc _ _ _ Hwf Hgroups class) as (e & He & Hkey).
    + assert (forall l : list ref, forall x, x ∈ l -> 1 <= Z.of_nat (length l))
        as Hlen by (intros [|? ?] x Hx; [by apply elem_of_nil in Hx | simpl; lia]).
      split; simpl.
      * by apply (Hlen _ r).
      * apply (Hlen _ r). by apply list_elem_of_filter.
    + intros Hnil. rewrite Hnil in Hgroup. by apply elem_of_nil in Hgroup.
    + exists e. by rewrite Hin.
Qed.

(** X10. A negative [maximumOccurrenceCount] passes the condition of line
    335, and [slice(0, N)] then counts from the end: the entries returned
    are the ranking without its last [-N] entries. *)
Theorem filterOccurrences_negative_cap {A : Type} (acc : accessor A)
    (o : obj (list A)) (N : Z) :
  well_formed o ->
  1 <= minimumOccurrence acc \/ no_empty_group o ->
  maximumOccurrenceCount acc = Some N ->
  N < 0 ->
  exists o' ranking,
    filterOccurrences acc o
    = Normal (o', take (length ranking - Z.to_nat (- N)) ranking) /\
    ranking ≡ₚ entries o' /\
    StronglySorted (descending (entry_score acc)) ranking.
Proof.
  intros Hwf Hne Hcap HN.
  exists (kept acc o), (ranked acc o). split_and!.
  - rewrite filterOccurrences_ranked by by (try apply kept_nonempty_cases).
    do 2 f_equal. unfold truncate. rewrite Hcap.
    assert (truthy N && (Z.of_nat (length (ranked acc o)) >? N) = true) as ->.
    { apply andb_true_iff. split.
      - unfold truthy. apply negb_true_iff, Z.eqb_neq. lia.
      - apply Z.gtb_lt. lia. }
    unfold Array_slice. rewrite relative_index_0 by lia.
    change (Z.to_nat 0) with 0%nat. rewrite drop_0, Z.sub_0_r.
    f_equal. unfold relative_index.
    destruct (Z.ltb_spec N 0); lia.
  - apply sort_desc_perm.
  - apply sort_desc_sorted.
Qed.

Lemma summarize_three_frames :
  summarize request tt three_frames three_faces sky_keywords
  = Normal three_frames_summary.
Proof. vm_compute. reflexivity. Qed.

Lemma summarize_faces_witness :
  summarize request tt three_frames three_faces sky_keywords
  = Normal three_frames_summary /\
  (forall e, e ∈ face_detection three_frames_summary ->
     exists name r,
       occurrences e = [r] /\ name_of three_faces r = Some name /\
       first_max (faceScore three_faces) r
         (with_key (name_of three_faces) (face_refs three_frames) name)) /\
  (forall name,
     (exists e, e ∈ face_detection three_frames_summary /\
                entry_key (name_of three_faces) e = Some name) <->
     3 <= Z.of_nat (length (with_key (name_of three_faces)
                              (face_refs three_frames) name))
     /\ 2 <= Z.of_nat (length (filter
                  (fun r => (0.85 <= faceScore three_faces r)%Q)
                  (with_key (name_of three_faces) (face_refs three_frames)
                     name)))) /\
  NoDup (entry_key (name_of three_faces)
           <$> face_detection three_frames_summary) /\
  StronglySorted (descending (entry_score (faceAccessor three_faces)))
    (face_detection three_frames_summary).
Proof.
  split; [exact summarize_three_frames|].
  exact (summarize_faces request tt three_frames three_faces sky_keywords
           three_frames_summary summarize_three_frames).
Defined.

Lemma summarize_keywords_witness :
  summarize request tt three_frames three_faces sky_keywords
  = Normal three_frames_summary /\
  exists ranking,
    image_keywords three_frames_summary = take 5 ranking /\
    StronglySorted (descending (entry_score (keywordAccessor sky_keywords)))
      ranking /\
    NoDup (entry_key (class_of sky_keywords) <$> ranking) /\
    (forall e, e ∈ ranking ->
       exists class r,
         occurrences e = [r] /\ class_of sky_keywords r = Some class /\
         first_max (labelScore sky_keywords) r
           (with_key (class_of sky_keywords) (keyword_refs three_frames)
              class) /\
         (0.60 <= labelScore sky_keywords r)%Q) /\
    (forall class r,
       r ∈ keyword_refs three_frames -> class_of sky_keywords r = Some class ->
       (0.60 <= labelScore sky_keywords r)%Q ->
       exists e, e ∈ ranking /\
                 entry_key (class_of sky_keywords) e = Some class).
Proof.
  split; [exact summarize_three_frames|].
  exact (summarize_keywords request tt three_frames three_faces sky_keywords
           three_frames_summary summarize_three_frames).
Defined.

Example filterOccurrences_all_but_1 :
  filterOccurrences all_but_1 a_and_b
  = Normal ([("a"%string, [0.9%Q]); ("b"%string, [0.99%Q])],
            [{| occurrences := [0.99%Q] |}]).
Proof. vm_compute. reflexivity. Qed.

Lemma filterOccurrences_negative_cap_witness :
  well_formed a_and_b /\
  (1 <= minimumOccurrence all_but_1 \/ no_empty_group a_and_b) /\
  maximumOccurrenceCount all_but_1 = Some (-1) /\
  -1 < 0 /\
  exists o' ranking,
    filterOccurrences all_but_1 a_and_b
    = Normal (o', take (length ranking - Z.to_nat (- -1)) ranking) /\
    ranking ≡ₚ entries o' /\
    StronglySorted (descending (entry_score all_but_1)) ranking.
Proof.
  assert (1 <= minimumOccurrence all_but_1 \/ no_empty_group a_and_b) as Hmin
    by (left; simpl; lia).
  assert (-1 < 0) as HN by lia.
  split_and!; [exact well_formed_a_and_b | exact Hmin | reflexivity | exact HN |].
  exact (filterOccurrences_negative_cap all_but_1 a_and_b (-1)
           well_formed_a_and_b Hmin eq_refl HN).
Defined.

(** ** The summary and the detection objects *)

(** C8, as stated, fails: the summary of one frame with one face named
    "alice" writes three fields into the face object of the frame. *)
Lemma summarize_writes_to_detection :
  exists out,
    summarize request tt [face_frame]
      alice_faces ∅ = Normal out /\
    (detections out).1 !! 0%nat
    = Some {| Face.identity := Face.identity (face_of (Some "alice"%string));
              Face.image_id := Some "frame-1"%string;
              Face.image_url :=
                Some "https://example.org/images/image/frame-1.jpg"%string;
              Face.timecode := Some 12%Q |} /\
    (detections out).1 !! 0%nat
    <> alice_faces !! 0%nat.
Proof.
  eexists. split; [apply summarize_Normal; vm_compute; reflexivity|].
  split; [vm_compute; reflexivity|]. vm_compute. intros [=].
Qed.

(** C8, amended.  A summary creates and removes no detection object and
    changes neither the identity of a face nor the class or the score of a
    keyword, and a face with no name is as it was; but the collecting loop
    writes [image_id], [image_url] and [timecode] into the detection
    objects of the images it was given.  Every named face detection of the
    images, and every keyword detection, has afterwards these three fields
    set to the identifier, the URL and the time code of an image that holds
    it, and is otherwise as it was; every other object of the store is as
    it was ([face_kept], [keyword_kept]).  Every occurrence of the summary
    is an object so tagged.  Filtering writes to no detection: the store is
    the one the collecting loop left. *)
Theorem summarize_tags_detections {Video : Type} req (video : Video) images
    faces0 keywords0 out :
  summarize req video images faces0 keywords0 = Normal out ->
  (forall r, face_kept req images (faces0 !! r) ((detections out).1 !! r)) /\
  (forall r, keyword_kept req images (keywords0 !! r)
               ((detections out).2 !! r)) /\
  (forall r face name,
     r ∈ face_refs images -> faces0 !! r = Some face ->
     identity_name face = Some name ->
     exists image,
       image ∈ images /\
       r ∈ default [] (Image.analysis image ≫= Analysis.face_detection) /\
       (detections out).1 !! r
       = Some {| Face.identity := Face.identity face;
                 Face.image_id := Some (Image._id image);
                 Face.image_url := Some (image_url req image);
                 Face.timecode := Image.frame_timecode image |}) /\
  (forall r keyword,
     r ∈ keyword_refs images -> keywords0 !! r = Some keyword ->
     exists image,
       image ∈ images /\
       r ∈ default [] (Image.analysis image ≫= Analysis.image_keywords) /\
       (detections out).2 !! r
       = Some {| Keyword.class := Keyword.class keyword;
                 Keyword.score := Keyword.score keyword;
                 Keyword.image_id := Some (Image._id image);
                 Keyword.image_url := Some (image_url req image);
                 Keyword.timecode := Image.frame_timecode image |}) /\
  (forall e r, e ∈ face_detection out -> r ∈ occurrences e ->
     exists name, face_pushed req images (detections out).1 name r) /\
  (forall e r, e ∈ image_keywords out -> r ∈ occurrences e ->
     exists class, keyword_pushed req images (detections out).2 class r) /\
  exists s, collect req images faces0 keywords0 = Normal s /\
            detections out = (faces s, keywords s).
Proof.
  intros Hout.
  destruct (collect req images faces0 keywords0) as [s|] eqn:Hs;
    [|unfold summarize in Hout; by rewrite Hs in Hout].
  rewrite (summarize_Normal _ _ _ _ _ s) in Hout by done.
  injection Hout as <-. simpl.
  destruct (collect_collected _ _ _ _ _ Hs)
    as (Hwfp & Hwfk & Hpeople & Hkeywords & Hfaces & Hkws).
  split_and!; [done | done | | | | | by exists s].
  - intros r face name Hr Hface Hname.
    assert (r ∈ with_key (name_of faces0) (face_refs images) name) as Hin.
    { apply list_elem_of_filter. split; [|done].
      unfold name_of. by rewrite Hface. }
    assert (obj_get (peopleNameToOccurrences s) name
            = Some (with_key (name_of faces0) (face_refs images) name))
      as Hgroup.
    { eapply collect_people; [done|]. split; [done|].
      intros Hnil. rewrite Hnil in Hin. by apply elem_of_nil in Hin. }
    destruct (Hpeople _ _ Hgroup) as [_ Hpushed].
    destruct (Hpushed r Hin) as (face' & image & Himage & Hheld & _ & Hface').
    exists image. split_and!; [done..|]. rewrite Hface'.
    specialize (Hfaces r). rewrite Hface, Hface' in Hfaces. simpl in Hfaces.
    assert (Face.identity face' = Face.identity face) as Hidentity.
    { destruct Hfaces as [Heq | (_ & image' & _ & Heq)];
        apply (inj Some) in Heq;
        by apply (f_equal Face.identity) in Heq. }
    unfold tagFace. by rewrite Hidentity.
  - intros r keyword Hr Hkeyword.
    assert (r ∈ with_key (class_of keywords0) (keyword_refs images)
                  (Keyword.class keyword)) as Hin.
    { apply list_elem_of_filter. split; [|done].
      unfold class_of. by rewrite Hkeyword. }
    assert (obj_get (keywordToOccurrences s) (Keyword.class keyword)
            = Some (with_key (class_of keywords0) (keyword_refs images)
                      (Keyword.class keyword)))
      as Hgroup.
    { eapply collect_keywords; [done|]. split; [done|].
      intros Hnil. rewrite Hnil in Hin. by apply elem_of_nil in Hin. }
    destruct (Hkeywords _ _ Hgroup) as [_ Hpushed].
    destruct (Hpushed r Hin)
      as (keyword' & image & Himage & Hheld & _ & Hkeyword').
    exists image. split_and!; [done..|]. rewrite Hkeyword'.
    specialize (Hkws r). rewrite Hkeyword, Hkeyword' in Hkws. simpl in Hkws.
    assert (Keyword.class keyword' = Keyword.class keyword /\
            Keyword.score keyword' = Keyword.score keyword) as [Hclass Hscore].
    { destruct Hkws as [Heq | (image' & _ & Heq)];
        apply (inj Some) in Heq;
        (split;
         [by apply (f_equal Keyword.class) in Heq
         |by apply (f_equal Keyword.score) in Heq]). }
    unfold tagKeyword. by rewrite Hclass, Hscore.
  - intros e r He Hr.
    assert (e ∈ entries (kept (faceAccessor (faces s))
                           (peopleNameToOccurrences s))) as Hentry.
    { revert He. unfold truncate. simpl. unfold ranked.
      by rewrite sort_desc_perm. }
    apply elem_of_entries_kept in Hentry as (k & arr & Harr & _ & Hbest); [|done].
    exists k. apply (Hpeople k arr Harr).
    rewrite Hbest in Hr. by apply best_subseteq in Hr.
  - intros e r He Hr.
    assert (e ∈ entries (kept (keywordAccessor (keywords s))
                           (keywordToOccurrences s))) as Hentry.
    { apply truncate_subseteq in He. revert He. unfold ranked.
      by rewrite sort_desc_perm. }
    apply elem_of_entries_kept in Hentry as (k & arr & Harr & _ & Hbest); [|done].
    exists k. apply (Hkeywords k arr Harr).
    rewrite Hbest in Hr. by apply best_subseteq in Hr.
Qed.

Lemma summarize_alice :
  summarize request tt [face_frame]
    alice_faces ∅
  = Normal alice_summary.
Proof. vm_compute. reflexivity. Qed.

Lemma summarize_tags_detections_witness :
  summarize request tt [face_frame]
    alice_faces ∅
  = Normal alice_summary /\
  (forall r,
     face_kept request [face_frame]
       (alice_faces !! r)
       ((detections alice_summary).1 !! r)) /\
  (forall r,
     keyword_kept request [face_frame]
       ((∅ : gmap ref Keyword.t) !! r) ((detections alice_summary).2 !! r)) /\
  (forall r face name,
     r ∈ face_refs [face_frame] -> alice_faces !! r = Some face ->
     identity_name face = Some name ->
     exists image,
       image ∈ [face_frame] /\
       r ∈ default [] (Image.analysis image ≫= Analysis.face_detection) /\
       (detections alice_summary).1 !! r
       = Some {| Face.identity := Face.identity face;
                 Face.image_id := Some (Image._id image);
                 Face.image_url := Some (image_url request image);
                 Face.timecode := Image.frame_timecode image |}) /\
  (forall r keyword,
     r ∈ keyword_refs [face_frame] ->
     (∅ : gmap ref Keyword.t) !! r = Some keyword ->
     exists image,
       image ∈ [face_frame] /\
       r ∈ default [] (Image.analysis image ≫= Analysis.image_keywords) /\
       (detections alice_summary).2 !! r
       = Some {| Keyword.class := Keyword.class keyword;
                 Keyword.score := Keyword.score keyword;
                 Keyword.image_id := Some (Image._id image);
                 Keyword.image_url := Some (image_url request image);
                 Keyword.timecode := Image.frame_timecode image |}) /\
  (forall e r, e ∈ face_detection alice_summary -> r ∈ occurrences e ->
     exists name,
       face_pushed request [face_frame]
         (detections alice_summary).1 name r) /\
  (forall e r, e ∈ image_keywords alice_summary -> r ∈ occurrences e ->
     exists class,
       keyword_pushed request [face_frame]
         (detections alice_summary).2 class r) /\
  exists s,
    collect request [face_frame]
      alice_faces ∅ = Normal s /\
    detections alice_summary = (faces s, keywords s).
Proof.
  split; [exact summarize_alice|].
  exact (summarize_tags_detections request tt [face_frame]
           alice_faces ∅ alice_summary
           summarize_alice).
Defined.
